(** * Session negotiation and chunked transfer of the P2P file-transfer page

    A shallow embedding of the React component [HomePage] (app/page.js):
    token validation, the signaling handler with its ICE candidate queue,
    the data-channel receiver ([onmessage] / [storeChunk]), the sender loop
    ([sendFiles] / [sendFile]) with its flow control, and the status model
    ([joinSession], [resetState], the relay [disconnect] handler and the
    waiting watchdog).

    Conventions of the embedding.
    - The component's [useState] cells and [useRef] cells are the fields of
      one record, [Comp]; every handler is a function [Comp -> Comp].
    - A state variable read inside a handler is a [const] of the render in
      which the handler was created: it is read from a snapshot [Render],
      never from the live record.  [setX v] writes the live record.
    - Browser objects (socket, peer connection, data channel) are records
      held in the refs; what they do on the wire is kept in logs
      ([emitted], [sentFrames], [iceApplied], [downloads]).
    - An [await] is a point where other tasks run; the sender is therefore a
      small machine whose steps are interleaved with channel events. *)

From Stdlib Require Import List String Ascii Arith ZArith Lia Bool.
Import ListNotations.

Local Open Scope string_scope.
Local Open Scope nat_scope.
Local Open Scope list_scope.

(* ================================================================== *)
(** * Part I. The embedding                                            *)
(* ================================================================== *)

(** ** Constants *)

(** [const CHUNK_SIZE = 64 * 1024] *)
Definition CHUNK_SIZE : nat := 64 * 1024.

Arguments CHUNK_SIZE : simpl never.

(** [5 * 60 * 1000], the delay of the waiting watchdog, in milliseconds. *)
Definition WAITING_TIMEOUT_MS : nat := 5 * 60 * 1000.

(** ** JavaScript values and strings *)

(** The values [isValidToken] may be handed; only the string case carries
    data the function looks at. *)
Inductive JSValue : Type :=
| JSUndefined
| JSNull
| JSBool (b : bool)
| JSNumber (n : Z)
| JSString (s : string)
| JSObject.

(** [typeof v === "string"] *)
Definition typeof_is_string (v : JSValue) : bool :=
  match v with
  | JSString _ => true
  | _ => false
  end.

Definition in_range (lo hi : nat) (c : ascii) : bool :=
  (lo <=? nat_of_ascii c) && (nat_of_ascii c <=? hi).

(** The character class [[A-Fa-f0-9]]. *)
Definition isHexDigit (c : ascii) : bool :=
  in_range 65 70 c || in_range 97 102 c || in_range 48 57 c.

Fixpoint all_chars (p : ascii -> bool) (s : string) : bool :=
  match s with
  | EmptyString => true
  | String c r => p c && all_chars p r
  end.

(** [/^[A-Fa-f0-9]+$/.test(s)]: one or more characters, all in the class
    (without the [m] flag [$] matches at the very end only). *)
Definition test_hex_plus (s : string) : bool :=
  match s with
  | EmptyString => false
  | String _ _ => all_chars isHexDigit s
  end.

(** [function isValidToken(token)] *)
Definition isValidToken (token : JSValue) : bool :=
  match token with
  | JSString s =>
      if negb (String.length s =? 16) then false
      else test_hex_plus s
  | _ => false
  end.

(** White space and line terminators removed by [String.prototype.trim],
    among the code units a [string] can hold. *)
Definition isWhiteSpace (c : ascii) : bool :=
  in_range 9 13 c || (nat_of_ascii c =? 32) || (nat_of_ascii c =? 160).

Fixpoint dropWhile {A : Type} (p : A -> bool) (l : list A) : list A :=
  match l with
  | [] => []
  | x :: r => if p x then dropWhile p r else l
  end.

(** [s.trim()] *)
Definition trim (s : string) : string :=
  string_of_list_ascii
    (rev (dropWhile isWhiteSpace
            (rev (dropWhile isWhiteSpace (list_ascii_of_string s))))).

(** ** The data model *)

(** [status]: idle | waiting | connected | transferring | completed | error *)
Inductive Status : Type :=
| Idle | Waiting | Connected | Transferring | Completed | Error.

Definition Status_eqb (a b : Status) : bool :=
  match a, b with
  | Idle, Idle | Waiting, Waiting | Connected, Connected
  | Transferring, Transferring | Completed, Completed | Error, Error => true
  | _, _ => false
  end.

Inductive Role : Type := Host | Guest.

(** [lastAction]: 'idle' | 'create' | 'join' *)
Inductive Action : Type := ActIdle | ActCreate | ActJoin.

(** The [type] of a signal message; [OtherType] is any other string. *)
Inductive SignalType : Type := Offer | Answer | Ice | OtherType.

(** What the component emits on the relay socket. *)
Inductive SocketMsg : Type :=
| MsgRegister (token : string)
| MsgSignal (token : option string) (kind : SignalType) (data : string)
| MsgSessionCancel (token : string)
| MsgSessionComplete (token : option string).

(** A browser [File]: [size] is the length of its content. *)
Record File : Type := mkFile {
  f_name : string;
  f_type : string;
  f_content : list Byte.byte
}.

Definition f_size (f : File) : nat := List.length (f_content f).

(** The object a text frame parses to, as far as the receiver reads it.
    An absent or falsy [type], [name] or [mime] is the empty string; an
    absent or [null] [size] is [None]. *)
Record FileMeta : Type := mkMeta {
  m_type : string;
  m_name : string;
  m_size : option Z;
  m_mime : string;
  m_chunkSize : Z
}.

(** The text of a frame, by what [JSON.parse] makes of it. *)
Inductive JSONText : Type :=
| Malformed
| Falsy
| Obj (o : FileMeta).

Inductive Frame : Type :=
| TextFrame (t : JSONText)
| BinaryFrame (bytes : list Byte.byte).

(** A file handed to the user by the programmatic click on an anchor. *)
Record Download : Type := mkDownload {
  d_name : string;
  d_mime : string;
  d_bytes : list Byte.byte
}.

(** A JS number of the shape [(numer / denom) * 100]. *)
Record Progress : Type := mkProgress {
  numer : Z;
  denom : Z
}.

Definition progress0 : Progress := mkProgress 0 1.

Inductive ChannelState : Type := ChConnecting | ChOpen | ChClosing | ChClosed.

Definition ChannelState_is_open (s : ChannelState) : bool :=
  match s with
  | ChOpen => true
  | _ => false
  end.

(** An [RTCDataChannel]: [sentFrames] is the log of [dc.send] calls. *)
Record DataChannel : Type := mkDC {
  readyState : ChannelState;
  bufferedAmount : nat;
  bufferedAmountLowThreshold : nat;
  sentFrames : list Frame
}.

(** An [RTCPeerConnection]: [iceApplied] is the log of [addIceCandidate]
    calls, in call order (a rejected candidate is swallowed by the
    handler's inner [try], so the log is all the component can observe). *)
Record PeerConnection : Type := mkPC {
  remoteDescription : option string;
  localDescription : option string;
  iceApplied : list string;
  ondatachannel : bool
}.

(** The state variables a closure created during a render can read. *)
Record Render : Type := mkRender {
  r_status : Status;
  r_sessionToken : string;
  r_selectedFiles : list File;
  r_currentFileIndex : nat
}.

(** The relay socket.  [wired] holds the closure of the listeners that
    [wireSocketEvents] attached ([None] after [removeAllListeners]);
    [connectCalls] counts the connection attempts the component started
    ([io(...)] with [autoConnect], or [connect()]). *)
Record Socket : Type := mkSocket {
  connected : bool;
  connectCalls : nat;
  emitted : list SocketMsg;
  wired : option Render
}.

(** The component: state cells, then refs, then the download log. *)
Record Comp : Type := mkComp {
  status : Status;
  error : string;
  role : option Role;
  sessionToken : string;
  expiresAt : option string;
  lastAction : Action;
  selectedFiles : list File;
  currentFileIndex : nat;
  sendProgress : Progress;
  recvProgress : Progress;
  pcRef : option PeerConnection;
  dcRef : option DataChannel;
  sessionTokenRef : option string;
  recvChunksRef : list (list Byte.byte);
  recvMetaRef : option FileMeta;
  recvBytesRef : Z;
  socketRef : option Socket;
  roleRef : option Role;
  iceCandidateQueueRef : list string;
  downloads : list Download
}.

(** The component as first mounted. *)
Definition initial : Comp :=
  mkComp Idle "" None "" None ActIdle [] 0 progress0 progress0
         None None None [] None 0%Z None None [] [].

(** What a render of the component in state [c] lets its closures see. *)
Definition render (c : Comp) : Render :=
  mkRender (status c) (sessionToken c) (selectedFiles c) (currentFileIndex c).

(** ** Writing one cell *)

Definition setStatus (v : Status) (c : Comp) : Comp :=
  mkComp v (error c) (role c) (sessionToken c) (expiresAt c) (lastAction c)
    (selectedFiles c) (currentFileIndex c) (sendProgress c) (recvProgress c)
    (pcRef c) (dcRef c) (sessionTokenRef c) (recvChunksRef c) (recvMetaRef c)
    (recvBytesRef c) (socketRef c) (roleRef c) (iceCandidateQueueRef c)
    (downloads c).

Definition setError (v : string) (c : Comp) : Comp :=
  mkComp (status c) v (role c) (sessionToken c) (expiresAt c) (lastAction c)
    (selectedFiles c) (currentFileIndex c) (sendProgress c) (recvProgress c)
    (pcRef c) (dcRef c) (sessionTokenRef c) (recvChunksRef c) (recvMetaRef c)
    (recvBytesRef c) (socketRef c) (roleRef c) (iceCandidateQueueRef c)
    (downloads c).

Definition setRole (v : option Role) (c : Comp) : Comp :=
  mkComp (status c) (error c) v (sessionToken c) (expiresAt c) (lastAction c)
    (selectedFiles c) (currentFileIndex c) (sendProgress c) (recvProgress c)
    (pcRef c) (dcRef c) (sessionTokenRef c) (recvChunksRef c) (recvMetaRef c)
    (recvBytesRef c) (socketRef c) (roleRef c) (iceCandidateQueueRef c)
    (downloads c).

Definition setSessionToken (v : string) (c : Comp) : Comp :=
  mkComp (status c) (error c) (role c) v (expiresAt c) (lastAction c)
    (selectedFiles c) (currentFileIndex c) (sendProgress c) (recvProgress c)
    (pcRef c) (dcRef c) (sessionTokenRef c) (recvChunksRef c) (recvMetaRef c)
    (recvBytesRef c) (socketRef c) (roleRef c) (iceCandidateQueueRef c)
    (downloads c).

Definition setExpiresAt (v : option string) (c : Comp) : Comp :=
  mkComp (status c) (error c) (role c) (sessionToken c) v (lastAction c)
    (selectedFiles c) (currentFileIndex c) (sendProgress c) (recvProgress c)
    (pcRef c) (dcRef c) (sessionTokenRef c) (recvChunksRef c) (recvMetaRef c)
    (recvBytesRef c) (socketRef c) (roleRef c) (iceCandidateQueueRef c)
    (downloads c).

Definition setLastAction (v : Action) (c : Comp) : Comp :=
  mkComp (status c) (error c) (role c) (sessionToken c) (expiresAt c) v
    (selectedFiles c) (currentFileIndex c) (sendProgress c) (recvProgress c)
    (pcRef c) (dcRef c) (sessionTokenRef c) (recvChunksRef c) (recvMetaRef c)
    (recvBytesRef c) (socketRef c) (roleRef c) (iceCandidateQueueRef c)
    (downloads c).

Definition setSelectedFiles (v : list File) (c : Comp) : Comp :=
  mkComp (status c) (error c) (role c) (sessionToken c) (expiresAt c)
    (lastAction c) v (currentFileIndex c) (sendProgress c) (recvProgress c)
    (pcRef c) (dcRef c) (sessionTokenRef c) (recvChunksRef c) (recvMetaRef c)
    (recvBytesRef c) (socketRef c) (roleRef c) (iceCandidateQueueRef c)
    (downloads c).

Definition setCurrentFileIndex (v : nat) (c : Comp) : Comp :=
  mkComp (status c) (error c) (role c) (sessionToken c) (expiresAt c)
    (lastAction c) (selectedFiles c) v (sendProgress c) (recvProgress c)
    (pcRef c) (dcRef c) (sessionTokenRef c) (recvChunksRef c) (recvMetaRef c)
    (recvBytesRef c) (socketRef c) (roleRef c) (iceCandidateQueueRef c)
    (downloads c).

Definition setSendProgress (v : Progress) (c : Comp) : Comp :=
  mkComp (status c) (error c) (role c) (sessionToken c) (expiresAt c)
    (lastAction c) (selectedFiles c) (currentFileIndex c) v (recvProgress c)
    (pcRef c) (dcRef c) (sessionTokenRef c) (recvChunksRef c) (recvMetaRef c)
    (recvBytesRef c) (socketRef c) (roleRef c) (iceCandidateQueueRef c)
    (downloads c).

Definition setRecvProgress (v : Progress) (c : Comp) : Comp :=
  mkComp (status c) (error c) (role c) (sessionToken c) (expiresAt c)
    (lastAction c) (selectedFiles c) (currentFileIndex c) (sendProgress c) v
    (pcRef c) (dcRef c) (sessionTokenRef c) (recvChunksRef c) (recvMetaRef c)
    (recvBytesRef c) (socketRef c) (roleRef c) (iceCandidateQueueRef c)
    (downloads c).

Definition set_pcRef (v : option PeerConnection) (c : Comp) : Comp :=
  mkComp (status c) (error c) (role c) (sessionToken c) (expiresAt c)
    (lastAction c) (selectedFiles c) (currentFileIndex c) (sendProgress c)
    (recvProgress c) v (dcRef c) (sessionTokenRef c) (recvChunksRef c)
    (recvMetaRef c) (recvBytesRef c) (socketRef c) (roleRef c)
    (iceCandidateQueueRef c) (downloads c).

Definition set_dcRef (v : option DataChannel) (c : Comp) : Comp :=
  mkComp (status c) (error c) (role c) (sessionToken c) (expiresAt c)
    (lastAction c) (selectedFiles c) (currentFileIndex c) (sendProgress c)
    (recvProgress c) (pcRef c) v (sessionTokenRef c) (recvChunksRef c)
    (recvMetaRef c) (recvBytesRef c) (socketRef c) (roleRef c)
    (iceCandidateQueueRef c) (downloads c).

Definition set_sessionTokenRef (v : option string) (c : Comp) : Comp :=
  mkComp (status c) (error c) (role c) (sessionToken c) (expiresAt c)
    (lastAction c) (selectedFiles c) (currentFileIndex c) (sendProgress c)
    (recvProgress c) (pcRef c) (dcRef c) v (recvChunksRef c)
    (recvMetaRef c) (recvBytesRef c) (socketRef c) (roleRef c)
    (iceCandidateQueueRef c) (downloads c).

Definition set_recvChunksRef (v : list (list Byte.byte)) (c : Comp) : Comp :=
  mkComp (status c) (error c) (role c) (sessionToken c) (expiresAt c)
    (lastAction c) (selectedFiles c) (currentFileIndex c) (sendProgress c)
    (recvProgress c) (pcRef c) (dcRef c) (sessionTokenRef c) v
    (recvMetaRef c) (recvBytesRef c) (socketRef c) (roleRef c)
    (iceCandidateQueueRef c) (downloads c).

Definition set_recvMetaRef (v : option FileMeta) (c : Comp) : Comp :=
  mkComp (status c) (error c) (role c) (sessionToken c) (expiresAt c)
    (lastAction c) (selectedFiles c) (currentFileIndex c) (sendProgress c)
    (recvProgress c) (pcRef c) (dcRef c) (sessionTokenRef c)
    (recvChunksRef c) v (recvBytesRef c) (socketRef c) (roleRef c)
    (iceCandidateQueueRef c) (downloads c).

Definition set_recvBytesRef (v : Z) (c : Comp) : Comp :=
  mkComp (status c) (error c) (role c) (sessionToken c) (expiresAt c)
    (lastAction c) (selectedFiles c) (currentFileIndex c) (sendProgress c)
    (recvProgress c) (pcRef c) (dcRef c) (sessionTokenRef c)
    (recvChunksRef c) (recvMetaRef c) v (socketRef c) (roleRef c)
    (iceCandidateQueueRef c) (downloads c).

Definition set_socketRef (v : option Socket) (c : Comp) : Comp :=
  mkComp (status c) (error c) (role c) (sessionToken c) (expiresAt c)
    (lastAction c) (selectedFiles c) (currentFileIndex c) (sendProgress c)
    (recvProgress c) (pcRef c) (dcRef c) (sessionTokenRef c)
    (recvChunksRef c) (recvMetaRef c) (recvBytesRef c) v (roleRef c)
    (iceCandidateQueueRef c) (downloads c).

Definition set_roleRef (v : option Role) (c : Comp) : Comp :=
  mkComp (status c) (error c) (role c) (sessionToken c) (expiresAt c)
    (lastAction c) (selectedFiles c) (currentFileIndex c) (sendProgress c)
    (recvProgress c) (pcRef c) (dcRef c) (sessionTokenRef c)
    (recvChunksRef c) (recvMetaRef c) (recvBytesRef c) (socketRef c) v
    (iceCandidateQueueRef c) (downloads c).

Definition set_iceCandidateQueueRef (v : list string) (c : Comp) : Comp :=
  mkComp (status c) (error c) (role c) (sessionToken c) (expiresAt c)
    (lastAction c) (selectedFiles c) (currentFileIndex c) (sendProgress c)
    (recvProgress c) (pcRef c) (dcRef c) (sessionTokenRef c)
    (recvChunksRef c) (recvMetaRef c) (recvBytesRef c) (socketRef c)
    (roleRef c) v (downloads c).

Definition set_downloads (v : list Download) (c : Comp) : Comp :=
  mkComp (status c) (error c) (role c) (sessionToken c) (expiresAt c)
    (lastAction c) (selectedFiles c) (currentFileIndex c) (sendProgress c)
    (recvProgress c) (pcRef c) (dcRef c) (sessionTokenRef c)
    (recvChunksRef c) (recvMetaRef c) (recvBytesRef c) (socketRef c)
    (roleRef c) (iceCandidateQueueRef c) v.

(** ** The relay socket *)

(** [s.emit(...)]: the message joins the socket's outgoing log (socket.io
    queues it when the socket is not connected yet). *)
Definition socket_emit (m : SocketMsg) (s : Socket) : Socket :=
  mkSocket (connected s) (connectCalls s) (emitted s ++ [m]) (wired s).

(** [s.removeAllListeners()] *)
Definition removeAllListeners (s : Socket) : Socket :=
  mkSocket (connected s) (connectCalls s) (emitted s) None.

(** [socketRef.current?.emit(...)] *)
Definition emit_opt (m : SocketMsg) (c : Comp) : Comp :=
  match socketRef c with
  | Some s => set_socketRef (Some (socket_emit m s)) c
  | None => c
  end.

(** [wireSocketEvents(s)]: the listeners it attaches are closures of the
    render [r] in which the caller ([joinSession], [createSession]) was
    created. *)
Definition wireSocketEvents (r : Render) (s : Socket) : Socket :=
  mkSocket (connected s) (connectCalls s) (emitted s) (Some r).

(** [ensureSocket()] *)
Definition ensureSocket (c : Comp) : Comp :=
  match socketRef c with
  | Some s =>
      if connected s then c
      else set_socketRef
             (Some (mkSocket (connected s) (S (connectCalls s))
                             (emitted s) (wired s))) c
  | None => set_socketRef (Some (mkSocket false 1 [] None)) c
  end.

Definition all_emitted (c : Comp) : list SocketMsg :=
  match socketRef c with
  | Some s => emitted s
  | None => []
  end.

Definition all_connectCalls (c : Comp) : nat :=
  match socketRef c with
  | Some s => connectCalls s
  | None => 0
  end.

(** ** Teardown *)

(** [cleanupRTC()]: handlers detached, channel and connection closed, both
    refs and the candidate queue cleared. *)
Definition cleanupRTC (c : Comp) : Comp :=
  set_iceCandidateQueueRef [] (set_pcRef None (set_dcRef None c)).

(** [resetState()], a callback of the render [r] (it reads [sessionToken]). *)
Definition resetState (r : Render) (c : Comp) : Comp :=
  let c := setStatus Idle c in
  let c := setError "" c in
  let c := setRole None c in
  let c := set_roleRef None c in
  let c := setSendProgress progress0 c in
  let c := setRecvProgress progress0 c in
  let c := setExpiresAt None c in
  let c := setLastAction ActIdle c in
  let c := setSelectedFiles [] c in
  let c := setCurrentFileIndex 0 c in
  let c := set_recvChunksRef [] c in
  let c := set_recvMetaRef None c in
  let c := set_recvBytesRef 0%Z c in
  let c :=
    match socketRef c with
    | Some s =>
        set_socketRef
          (Some (removeAllListeners
                   (socket_emit (MsgSessionCancel (r_sessionToken r)) s))) c
    | None => c
    end in
  cleanupRTC c.

(** ** Joining a session *)

Definition invalidToken (c : Comp) : Comp :=
  setStatus Error (setError "Invalid token." c).

(** [joinSession()], a click handler of the render [r]; [input] is
    [tokenInputRef.current?.value] ([None] when there is no input element). *)
Definition joinSession (r : Render) (input : option string) (c : Comp) : Comp :=
  let c := resetState r c in
  let c := setLastAction ActJoin c in
  match option_map trim input with
  | None => invalidToken c
  | Some token =>
      if (token =? "")%string || negb (isValidToken (JSString token))
      then invalidToken c
      else
        let c := setSessionToken token c in
        let c := set_sessionTokenRef (Some token) c in
        let c := setStatus Waiting c in
        let c := ensureSocket c in
        match socketRef c with
        | Some s =>
            set_socketRef
              (Some (socket_emit (MsgRegister token) (wireSocketEvents r s))) c
        | None => c
        end
  end.

(** The user clicks Join: the handler is the one of the current render. *)
Definition click_join (input : option string) (c : Comp) : Comp :=
  joinSession (render c) input c.

(** ** Relay events *)

(** The [disconnect] listener attached by [wireSocketEvents] in render [r]. *)
Definition on_disconnect (r : Render) (reason : string) (c : Comp) : Comp :=
  if negb (reason =? "io client disconnect")%string then
    let c := setError "Disconnected from signaling server." c in
    if negb (Status_eqb (r_status r) Completed) then setStatus Error c else c
  else c.

(** The relay connection drops: the socket is no longer connected and the
    attached listener, if any, runs. *)
Definition socket_disconnect (reason : string) (c : Comp) : Comp :=
  match socketRef c with
  | None => c
  | Some s =>
      let c :=
        set_socketRef
          (Some (mkSocket false (connectCalls s) (emitted s) (wired s))) c in
      match wired s with
      | Some r => on_disconnect r reason c
      | None => c
      end
  end.

(** The [session-destroyed] listener. *)
Definition on_session_destroyed (c : Comp) : Comp :=
  cleanupRTC (setStatus Completed c).

(** The [error-message] listener ([message || "Signaling error"]). *)
Definition on_error_message (message : string) (c : Comp) : Comp :=
  setStatus Error
    (setError (if (message =? "")%string then "Signaling error" else message) c).

(** The [registered] listener. *)
Definition on_registered (r : Role) (exp : option string) (c : Comp) : Comp :=
  let c := set_roleRef (Some r) (setRole (Some r) c) in
  match exp with
  | Some e => setExpiresAt (Some e) c
  | None => c
  end.

(** ** The waiting watchdog *)

(** The effect of a render [r] arms a timer only when [status] is waiting. *)
Definition watchdog_delay (r : Render) : option nat :=
  if Status_eqb (r_status r) Waiting then Some WAITING_TIMEOUT_MS else None.

(** The callback of that timer.  It runs only if the effect was not cleaned
    up in the meantime, that is if neither [status] nor [resetState] changed
    since render [r]. *)
Definition waitingTimeout (r : Render) (c : Comp) : Comp :=
  match watchdog_delay r with
  | None => c
  | Some _ =>
      if Status_eqb (r_status r) Waiting then
        let c := setError "Connection timeout: peer did not connect in time." c in
        let c := setStatus Error c in
        resetState r c
      else c
  end.

(** The timer armed by the current render fires. *)
Definition timer_fires (c : Comp) : Comp := waitingTimeout (render c) c.

(** ** The receiver *)

(** [meta && meta.type === "meta" && meta.name && meta.size != null] *)
Definition meta_ok (meta : FileMeta) : bool :=
  (m_type meta =? "meta")%string
  && negb (m_name meta =? "")%string
  && match m_size meta with Some _ => true | None => false end.

(** [recvBytesRef.current >= recvMetaRef.current.size] *)
Definition size_reached (bytes : Z) (size : option Z) : bool :=
  match size with
  | Some z => (z <=? bytes)%Z
  | None => false
  end.

(** [recvMetaRef.current?.size || 1] *)
Definition total_or_1 (meta : option FileMeta) : Z :=
  match meta with
  | Some m =>
      match m_size m with
      | Some z => if (z =? 0)%Z then 1%Z else z
      | None => 1%Z
      end
  | None => 1%Z
  end.

Definition or_default (s d : string) : string :=
  if (s =? "")%string then d else s.

(** [function storeChunk(arrayBuffer)] *)
Definition storeChunk (arrayBuffer : list Byte.byte) (c : Comp) : Comp :=
  let c := set_recvChunksRef (recvChunksRef c ++ [arrayBuffer]) c in
  let c := set_recvBytesRef
             (recvBytesRef c + Z.of_nat (List.length arrayBuffer))%Z c in
  let total := total_or_1 (recvMetaRef c) in
  let c := setRecvProgress (mkProgress (recvBytesRef c) total) c in
  match recvMetaRef c with
  | None => c
  | Some meta =>
      if size_reached (recvBytesRef c) (m_size meta) then
        let blob := mkDownload (or_default (m_name meta) "download")
                      (or_default (m_mime meta) "application/octet-stream")
                      (List.concat (recvChunksRef c)) in
        let c := set_downloads (downloads c ++ [blob]) c in
        let c := setStatus Completed c in
        emit_opt (MsgSessionComplete (sessionTokenRef c)) c
      else c
  end.

(** [dc.onmessage]: a text frame is parsed and, when meta-shaped, starts a
    new reception context; a binary frame (an [ArrayBuffer]) goes to
    [storeChunk]. *)
Definition dc_onmessage (data : Frame) (c : Comp) : Comp :=
  match data with
  | TextFrame Malformed =>
      setStatus Error (setError "Error handling received message" c)
  | TextFrame Falsy => c
  | TextFrame (Obj meta) =>
      if meta_ok meta then
        let c := set_recvMetaRef (Some meta) c in
        let c := set_recvChunksRef [] c in
        let c := set_recvBytesRef 0%Z c in
        let c := setRecvProgress progress0 c in
        setStatus Transferring c
      else c
  | BinaryFrame arrayBuffer => storeChunk arrayBuffer c
  end.

(** The frames of a list delivered one after the other. *)
Definition receive (frames : list Frame) (c : Comp) : Comp :=
  fold_left (fun c data => dc_onmessage data c) frames c.

(** [dc.onopen] *)
Definition dc_onopen (c : Comp) : Comp :=
  match dcRef c with
  | Some dc =>
      setStatus Connected
        (set_dcRef (Some (mkDC ChOpen (bufferedAmount dc)
                                (bufferedAmountLowThreshold dc)
                                (sentFrames dc))) c)
  | None => c
  end.

(** [function bindDataChannel(dc)] *)
Definition bindDataChannel (dc : DataChannel) (c : Comp) : Comp :=
  set_dcRef
    (Some (mkDC (readyState dc) (bufferedAmount dc) (CHUNK_SIZE * 4)
                (sentFrames dc))) c.

(** A channel as the browser creates it. *)
Definition newDataChannel : DataChannel := mkDC ChConnecting 0 0 [].

(** ** Negotiation *)

(** What a call into the browser's WebRTC stack does: it returns, or it
    throws an error with a message. *)
Inductive Outcome (A : Type) : Type :=
| Returns (a : A)
| Throws (message : string).

Arguments Returns {A} a.
Arguments Throws {A} message.

(** [await pc.addIceCandidate(candidate)], wrapped in its own [try]: the
    call is made, and a rejection changes nothing the component keeps. *)
Definition addIceCandidate (pc : PeerConnection) (candidate : string)
  : PeerConnection :=
  mkPC (remoteDescription pc) (localDescription pc)
       (iceApplied pc ++ [candidate]) (ondatachannel pc).

Definition withRemote (data : string) (pc : PeerConnection) : PeerConnection :=
  mkPC (Some data) (localDescription pc) (iceApplied pc) (ondatachannel pc).

Definition withLocal (data : string) (pc : PeerConnection) : PeerConnection :=
  mkPC (remoteDescription pc) (Some data) (iceApplied pc) (ondatachannel pc).

(** [new RTCPeerConnection(...)] *)
Definition newPeerConnection : PeerConnection := mkPC None None [] false.

(** The outer [catch] of the signal listener. *)
Definition signalingError (message : string) (c : Comp) : Comp :=
  setStatus Error (setError ("Signaling error: " ++ message) c).

(** *** The signal listener

    The listener is an [async] function: every [await] suspends the
    invocation, and other signal messages are handled while it is suspended.
    An invocation is therefore a task that moves from one [await] to the
    next when the promise it waits for settles, and the socket delivers
    messages in between. *)

(** Who called [pc.addIceCandidate]: the flush loop of the listener
    invocation number [task], or the [ice] branch of an invocation, on
    arrival of the candidate. *)
Inductive Caller : Type :=
| FromQueue (task : nat)
| OnArrival.

Definition Caller_eqb (a b : Caller) : bool :=
  match a, b with
  | FromQueue i, FromQueue j => i =? j
  | OnArrival, OnArrival => true
  | _, _ => false
  end.

(** The iterator of [for (const candidate of iceCandidateQueueRef.current)]:
    it holds the array object and the next index.  While the array is the
    one the ref holds, its content is read from the ref ([Live]); once the
    ref has been given a new array ([iceCandidateQueueRef.current = []]) the
    old one is reachable from its iterators only and cannot change, so the
    iterator is kept as the elements it has yet to visit ([Detached]). *)
Inductive Iterator : Type :=
| Live (index : nat)
| Detached (rest : list string).

(** Where a suspended invocation of the listener stands:
    [await pc.setRemoteDescription(data)] of the offer or answer branch;
    [await pc.addIceCandidate(candidate)] inside the flush loop;
    [await pc.createAnswer()]; [await pc.setLocalDescription(answer)]; or
    returned. *)
Inductive Task : Type :=
| AwaitRemote (type : SignalType) (data : string)
| InFlush (type : SignalType) (it : Iterator)
| AwaitCreateAnswer
| AwaitSetLocal (answer : string)
| Returned.

(** What happens next on the page: the socket delivers a signal message, or
    the promise awaited by invocation [task] settles. *)
Inductive SignalEvent : Type :=
| Arrives (type : SignalType) (data : string)
| Settles (task : nat) (outcome : Outcome string).

(** The component, the invocations of the listener started so far (an
    invocation of the [ice] branch has nothing left to do after its only
    [await] and is not kept), and the log of [addIceCandidate] calls with
    their callers. *)
Record Signaling : Type := mkSignaling {
  sg_comp : Comp;
  sg_tasks : list Task;
  sg_calls : list (Caller * string)
}.

Definition signaling (c : Comp) : Signaling := mkSignaling c [] [].

Fixpoint set_nth {A : Type} (k : nat) (x : A) (l : list A) : list A :=
  match l, k with
  | [], _ => []
  | _ :: r, 0 => x :: r
  | y :: r, S k' => y :: set_nth k' x r
  end.

(** The next element of an iterator over the array [queue] holds. *)
Definition iterator_next (queue : list string) (it : Iterator)
  : option (string * Iterator) :=
  match it with
  | Live index =>
      match nth_error queue index with
      | Some candidate => Some (candidate, Live (S index))
      | None => None
      end
  | Detached [] => None
  | Detached (candidate :: rest) => Some (candidate, Detached rest)
  end.

(** [iceCandidateQueueRef.current = []] as seen by a suspended loop: its
    iterator keeps the array the ref held until then. *)
Definition detach (queue : list string) (t : Task) : Task :=
  match t with
  | InFlush type (Live index) => InFlush type (Detached (skipn index queue))
  | _ => t
  end.

(** The calls on the connection object the listener holds in [pc]; the
    listener is wired for one connection, the one [pcRef] holds. *)
Definition pc_addIceCandidate (candidate : string) (c : Comp) : Comp :=
  match pcRef c with
  | Some pc => set_pcRef (Some (addIceCandidate pc candidate)) c
  | None => c
  end.

(** The browser has applied [data] as remote description (it does so when
    it resolves the promise of [setRemoteDescription]). *)
Definition pc_remoteApplied (data : string) (c : Comp) : Comp :=
  match pcRef c with
  | Some pc => set_pcRef (Some (withRemote data pc)) c
  | None => c
  end.

Definition pc_localApplied (data : string) (c : Comp) : Comp :=
  match pcRef c with
  | Some pc => set_pcRef (Some (withLocal data pc)) c
  | None => c
  end.

(** Invocation [k] at the head of its flush loop with iterator [it]: it
    calls [addIceCandidate] on the next candidate and suspends, or leaves the
    loop, empties the ref and goes on ([createAnswer] for an offer, the end
    for an answer). *)
Definition flush_step (k : nat) (type : SignalType) (it : Iterator)
           (s : Signaling) : Signaling :=
  match iterator_next (iceCandidateQueueRef (sg_comp s)) it with
  | Some (candidate, it') =>
      mkSignaling (pc_addIceCandidate candidate (sg_comp s))
                  (set_nth k (InFlush type it') (sg_tasks s))
                  (sg_calls s ++ [(FromQueue k, candidate)])
  | None =>
      let tasks := map (detach (iceCandidateQueueRef (sg_comp s))) (sg_tasks s) in
      let c := set_iceCandidateQueueRef [] (sg_comp s) in
      match type with
      | Offer => mkSignaling c (set_nth k AwaitCreateAnswer tasks) (sg_calls s)
      | _ => mkSignaling c (set_nth k Returned tasks) (sg_calls s)
      end
  end.

(** The socket delivers [{type, data}]: the listener runs up to its first
    [await]. *)
Definition arrive (type : SignalType) (data : string) (s : Signaling)
  : Signaling :=
  match pcRef (sg_comp s) with
  | None => s
  | Some pc =>
      match type with
      | Offer | Answer =>
          mkSignaling (sg_comp s) (sg_tasks s ++ [AwaitRemote type data])
                      (sg_calls s)
      | Ice =>
          match remoteDescription pc with
          | Some _ =>
              mkSignaling (pc_addIceCandidate data (sg_comp s)) (sg_tasks s)
                          (sg_calls s ++ [(OnArrival, data)])
          | None =>
              mkSignaling
                (set_iceCandidateQueueRef
                   (iceCandidateQueueRef (sg_comp s) ++ [data]) (sg_comp s))
                (sg_tasks s) (sg_calls s)
          end
      | OtherType => s
      end
  end.

(** The promise awaited by invocation [k] settles and the invocation runs
    up to its next [await].  A rejection inside the flush loop is swallowed
    by the inner [try]; any other goes to the outer [catch].  The browser
    sets [pc.remoteDescription] in the task in which it resolves the promise
    of [setRemoteDescription], and the continuation of the [await] runs as a
    microtask of that task, before any other message is delivered: both are
    one step here.  Promises may settle in any order. *)
Definition settle (k : nat) (outcome : Outcome string) (s : Signaling)
  : Signaling :=
  match nth_error (sg_tasks s) k with
  | Some (AwaitRemote type data) =>
      match outcome with
      | Throws message =>
          mkSignaling (signalingError message (sg_comp s))
                      (set_nth k Returned (sg_tasks s)) (sg_calls s)
      | Returns _ =>
          flush_step k type (Live 0)
            (mkSignaling (pc_remoteApplied data (sg_comp s)) (sg_tasks s)
                         (sg_calls s))
      end
  | Some (InFlush type it) => flush_step k type it s
  | Some AwaitCreateAnswer =>
      match outcome with
      | Throws message =>
          mkSignaling (signalingError message (sg_comp s))
                      (set_nth k Returned (sg_tasks s)) (sg_calls s)
      | Returns answer =>
          mkSignaling (sg_comp s) (set_nth k (AwaitSetLocal answer) (sg_tasks s))
                      (sg_calls s)
      end
  | Some (AwaitSetLocal answer) =>
      match outcome with
      | Throws message =>
          mkSignaling (signalingError message (sg_comp s))
                      (set_nth k Returned (sg_tasks s)) (sg_calls s)
      | Returns _ =>
          let c := pc_localApplied answer (sg_comp s) in
          mkSignaling (emit_opt (MsgSignal (sessionTokenRef c) Answer answer) c)
                      (set_nth k Returned (sg_tasks s)) (sg_calls s)
      end
  | Some Returned => s
  | None => s
  end.

Definition signal_step (e : SignalEvent) (s : Signaling) : Signaling :=
  match e with
  | Arrives type data => arrive type data s
  | Settles k outcome => settle k outcome s
  end.

(** A sequence of events, from a state of the page. *)
Definition signal_run (evs : list SignalEvent) (s : Signaling) : Signaling :=
  fold_left (fun s e => signal_step e s) evs s.

Section Negotiation.

(** The local description that [createOffer] followed by
    [setLocalDescription] leaves on the connection, or the error thrown. *)
Variable createOffer : PeerConnection -> Outcome string.

(** [async function startWebRTC()] *)
Definition startWebRTC (c : Comp) : Comp :=
  match sessionTokenRef c with
  | None =>
      setStatus Error (setError "Invalid session token. Please try again." c)
  | Some token =>
      if (token =? "")%string || negb (isValidToken (JSString token)) then
        setStatus Error (setError "Invalid session token. Please try again." c)
      else
        let pc := newPeerConnection in
        let c := set_pcRef (Some pc) c in
        match roleRef c with
        | Some Host =>
            let c := bindDataChannel newDataChannel c in
            match createOffer pc with
            | Throws message =>
                setStatus Error (setError ("WebRTC init failed: " ++ message) c)
            | Returns offer =>
                let c := set_pcRef (Some (withLocal offer pc)) c in
                emit_opt (MsgSignal (Some token) Offer offer) c
            end
        | _ =>
            set_pcRef (Some (mkPC None None [] true)) c
        end
  end.

(** The [ready] listener. *)
Definition on_ready (c : Comp) : Comp :=
  match sessionTokenRef c with
  | Some token =>
      if negb (token =? "")%string && isValidToken (JSString token)
      then startWebRTC c
      else setStatus Error
             (setError "Session token not ready. Please try again." c)
  | None =>
      setStatus Error (setError "Session token not ready. Please try again." c)
  end.

End Negotiation.

(** [pc.ondatachannel], set on the guest's connection only. *)
Definition pc_ondatachannel (dc : DataChannel) (c : Comp) : Comp :=
  match pcRef c with
  | Some pc => if ondatachannel pc then bindDataChannel dc c else c
  | None => c
  end.

(** The ICE candidates among the events of a list, in arrival order. *)
Definition arrived (evs : list SignalEvent) : list string :=
  flat_map (fun e => match e with Arrives Ice data => [data] | _ => [] end) evs.

(** The candidates a caller handed to [addIceCandidate], in call order. *)
Definition calls_by (who : Caller) (s : Signaling) : list string :=
  map snd (filter (fun call => Caller_eqb (fst call) who) (sg_calls s)).

(** What the iterator of a flush loop has yet to visit. *)
Definition remaining (queue : list string) (it : Iterator) : list string :=
  match it with
  | Live index => skipn index queue
  | Detached rest => rest
  end.

(** What a task has yet to take from the queue. *)
Definition pending (queue : list string) (t : Task) : list string :=
  match t with
  | InFlush _ it => remaining queue it
  | _ => []
  end.

(** The task of invocation [k]. *)
Definition task_of (k : nat) (s : Signaling) : Task :=
  nth k (sg_tasks s) Returned.

(** ** The sender *)

(** [blob.slice(a, b)] on the content of a file. *)
Definition slice (content : list Byte.byte) (a b : nat) : list Byte.byte :=
  firstn (b - a) (skipn a content).

(** [files.reduce((sum, f) => sum + f.size, 0)] *)
Definition sum_sizes (files : list File) : nat :=
  fold_left (fun sum f => sum + f_size f) files 0.

(** The [meta] object of [sendFile]. *)
Definition meta_of (file : File) : FileMeta :=
  mkMeta "meta" (f_name file) (Some (Z.of_nat (f_size file))) (f_type file)
         (Z.of_nat CHUNK_SIZE).

(** Where the [async] call of [sendFiles] stands: about to call [sendFile]
    for file [i]; at the head of the [while] loop of file [i]; suspended on
    the [bufferedamountlow] promise with the chunk at [offset] in hand; or
    returned. *)
Inductive SendPC : Type :=
| AtFile (i : nat)
| InLoop (i offset : nat)
| AwaitLow (i offset : nat)
| Finished.

(** What happens between two steps of the sender: the sender task runs up
    to its next [await], or the transport takes [d] bytes off the channel's
    buffer. *)
Inductive Act : Type :=
| Run
| Drain (d : nat).

Section Sender.

(** The number of bytes a text frame adds to the channel's buffer (the
    UTF-8 length of the JSON text), and the message of the error [dc.send]
    throws on a channel that is not open. *)
Variable textBytes : JSONText -> nat.
Variable sendErrorMessage : string.

Definition frameBytes (f : Frame) : nat :=
  match f with
  | TextFrame t => textBytes t
  | BinaryFrame b => List.length b
  end.

(** [dc.send(frame)]: [None] when it throws (the channel is not open). *)
Definition dc_send (f : Frame) (dc : DataChannel) : option DataChannel :=
  if ChannelState_is_open (readyState dc) then
    Some (mkDC (readyState dc) (bufferedAmount dc + frameBytes f)
               (bufferedAmountLowThreshold dc) (sentFrames dc ++ [f]))
  else None.

(** The [catch] of [sendFiles], reached when [sendFile] rethrows. *)
Definition sendFailed (c : Comp) : SendPC * Comp :=
  (Finished,
   setStatus Error (setError ("File transfer failed: " ++ sendErrorMessage) c)).

(** [sendFiles()] up to its loop; a click handler of render [r]. *)
Definition sendFiles (r : Render) (c : Comp) : SendPC * Comp :=
  let notReady :=
    match dcRef c with
    | Some dc => negb (ChannelState_is_open (readyState dc))
    | None => true
    end in
  if (List.length (r_selectedFiles r) =? 0) || notReady then
    (Finished, setError "No files selected or connection not ready." c)
  else
    (AtFile 0,
     setCurrentFileIndex 0 (setSendProgress progress0 (setStatus Transferring c))).

(** The loop body of [sendFile] from [dc.send(arrayBuffer)] on. *)
Definition sendChunk (r : Render) (i offset : nat) (file : File) (c : Comp)
  : SendPC * Comp :=
  let arrayBuffer := slice (f_content file) offset (offset + CHUNK_SIZE) in
  match dcRef c with
  | None => sendFailed c
  | Some dc =>
      match dc_send (BinaryFrame arrayBuffer) dc with
      | None => sendFailed c
      | Some dc' =>
          let c := set_dcRef (Some dc') c in
          let offset := offset + List.length arrayBuffer in
          let totalBytes := sum_sizes (r_selectedFiles r) in
          let sentBytes :=
            sum_sizes (firstn (r_currentFileIndex r) (r_selectedFiles r))
            + offset in
          (InLoop i offset,
           setSendProgress
             (mkProgress (Z.of_nat sentBytes) (Z.of_nat totalBytes)) c)
      end
  end.

(** The end of [sendFile(file, isLast)]. *)
Definition afterLoop (r : Render) (i : nat) (c : Comp) : SendPC * Comp :=
  if i =? List.length (r_selectedFiles r) - 1 then
    let c := setStatus Completed c in
    let c := setSelectedFiles [] c in
    let c := setCurrentFileIndex 0 c in
    (AtFile (S i), emit_opt (MsgSessionComplete (sessionTokenRef c)) c)
  else
    (AtFile (S i), setCurrentFileIndex (r_currentFileIndex r + 1) c).

(** The sender task runs from one suspension point to the next. *)
Definition sender_run (r : Render) (pc : SendPC) (c : Comp) : SendPC * Comp :=
  match pc with
  | AtFile i =>
      match nth_error (r_selectedFiles r) i with
      | None => (Finished, c)
      | Some file =>
          match dcRef c with
          | None => (AtFile (S i), setError "Waiting for peer connection..." c)
          | Some dc =>
              match dc_send (TextFrame (Obj (meta_of file))) dc with
              | None =>
                  (AtFile (S i), setError "Waiting for peer connection..." c)
              | Some dc' => (InLoop i 0, set_dcRef (Some dc') c)
              end
          end
      end
  | InLoop i offset =>
      match nth_error (r_selectedFiles r) i with
      | None => (Finished, c)
      | Some file =>
          if offset <? f_size file then
            match dcRef c with
            | None => sendFailed c
            | Some dc =>
                if bufferedAmountLowThreshold dc <? bufferedAmount dc
                then (AwaitLow i offset, c)
                else sendChunk r i offset file c
            end
          else afterLoop r i c
      end
  | AwaitLow i offset => (AwaitLow i offset, c)
  | Finished => (Finished, c)
  end.

(** The transport takes [d] bytes off the buffer; the channel fires
    [bufferedamountlow] when that brings the amount from above the threshold
    to the threshold or below. *)
Definition drain (d : nat) (dc : DataChannel) : DataChannel * bool :=
  let amount := bufferedAmount dc - d in
  (mkDC (readyState dc) amount (bufferedAmountLowThreshold dc) (sentFrames dc),
   (bufferedAmountLowThreshold dc <? bufferedAmount dc)
   && (amount <=? bufferedAmountLowThreshold dc)).

(** A drain, and the resumption of a sender suspended on the event. *)
Definition on_drain (r : Render) (d : nat) (pc : SendPC) (c : Comp)
  : SendPC * Comp :=
  match dcRef c with
  | None => (pc, c)
  | Some dc =>
      let c := set_dcRef (Some (fst (drain d dc))) c in
      if snd (drain d dc) then
        match pc with
        | AwaitLow i offset =>
            match nth_error (r_selectedFiles r) i with
            | Some file => sendChunk r i offset file c
            | None => (pc, c)
            end
        | _ => (pc, c)
        end
      else (pc, c)
  end.

Definition step (r : Render) (a : Act) (s : SendPC * Comp) : SendPC * Comp :=
  match a with
  | Run => sender_run r (fst s) (snd s)
  | Drain d => on_drain r d (fst s) (snd s)
  end.

(** A schedule run from a state of the sender. *)
Definition exec (r : Render) (acts : list Act) (s : SendPC * Comp)
  : SendPC * Comp :=
  fold_left (fun s a => step r a s) acts s.

(** The user clicks Send, then the schedule [acts] unfolds. *)
Definition click_send (acts : list Act) (c : Comp) : SendPC * Comp :=
  exec (render c) acts (sendFiles (render c) c).

End Sender.

(** The frames a channel has been asked to send. *)
Definition frames_sent (c : Comp) : list Frame :=
  match dcRef c with
  | Some dc => sentFrames dc
  | None => []
  end.

Definition buffered (c : Comp) : nat :=
  match dcRef c with
  | Some dc => bufferedAmount dc
  | None => 0
  end.

(** [ceil(n / c)] *)
Definition ceil_div (n c : nat) : nat := (n + c - 1) / c.

(** The [k]-th chunk of a file. *)
Definition chunk_at (file : File) (k : nat) : list Byte.byte :=
  slice (f_content file) (k * CHUNK_SIZE) (k * CHUNK_SIZE + CHUNK_SIZE).

(** The frames of one file: its meta frame, then its chunks. *)
Definition file_frames (file : File) : list Frame :=
  TextFrame (Obj (meta_of file))
  :: map (fun k => BinaryFrame (chunk_at file k))
         (seq 0 (ceil_div (f_size file) CHUNK_SIZE)).

(** The UTF-8 length of [JSON.stringify(meta)] for a meta object whose name
    and MIME type hold nothing that JSON escapes. *)
Fixpoint digits_fuel (fuel n : nat) : nat :=
  match fuel with
  | 0 => 1
  | S fuel' => if n <? 10 then 1 else S (digits_fuel fuel' (n / 10))
  end.

Definition plainTextBytes (t : JSONText) : nat :=
  match t with
  | Obj o =>
      23 + String.length (m_name o) + 9
      + match m_size o with
        | Some z => digits_fuel 20 (Z.to_nat z)
        | None => 4
        end
      + 9 + String.length (m_mime o) + 20
  | _ => 4
  end.

(** ** Vocabulary of the statements *)

(** The characters a token may hold: 0-9, a-f, A-F. *)
Definition hex_alphabet : list ascii :=
  list_ascii_of_string "0123456789abcdefABCDEF".

Definition is_hex_string (s : string) : Prop :=
  Forall (fun ch => In ch hex_alphabet) (list_ascii_of_string s).

(** The cumulative byte counter has reached the size declared by the
    current meta object. *)
Definition declared_size_reached (c : Comp) (bytes : Z) : Prop :=
  exists meta size,
    recvMetaRef c = Some meta /\ m_size meta = Some size /\ (size <= bytes)%Z.

(** Between [before] and [after] the current file was finalized: one blob
    made of the buffered chunks was handed to the user, the status became
    completed and [session-complete] went out on the socket (if any). *)
Definition finalized (before after : Comp) : Prop :=
  exists blob,
    downloads after = downloads before ++ [blob]
    /\ d_bytes blob = List.concat (recvChunksRef after)
    /\ status after = Completed
    /\ all_emitted after =
       all_emitted before
       ++ match socketRef before with
          | Some _ => [MsgSessionComplete (sessionTokenRef before)]
          | None => []
          end.

Definition not_finalized (before after : Comp) : Prop :=
  downloads after = downloads before
  /\ status after = status before
  /\ all_emitted after = all_emitted before.

Definition total_length (chunks : list (list Byte.byte)) : nat :=
  List.length (List.concat chunks).

(** ** Concrete data for the worked examples *)

Definition early_chunk : list Byte.byte := [Byte.x01; Byte.x02; Byte.x03].

Definition late_chunk : list Byte.byte := [Byte.x04; Byte.x05].

(** The parsed text of [{"type":"meta","name":"b.bin","size":2,...}]. *)
Definition late_meta : FileMeta :=
  mkMeta "meta" "b.bin" (Some 2%Z) "" (Z.of_nat CHUNK_SIZE).

Definition fixed_offer (pc : PeerConnection) : Outcome string :=
  Returns "offer-sdp".

(** A guest that joined with a valid token, was registered and received
    [ready]: its peer connection exists and has no remote description. *)
Definition guest_ready : Comp :=
  on_ready fixed_offer
    (on_registered Guest None
       (click_join (Some "1a2b3c4d5e6f7890") initial)).

Definition guest_pc : PeerConnection := mkPC None None [] true.

(** Two candidates arrive, then the offer; its description is applied and
    the flush starts; a third candidate arrives while the flush is suspended
    on its first call; the flush then resumes twice. *)
Definition early_signals : list SignalEvent :=
  [Arrives Ice "candidate-1"; Arrives Ice "candidate-2";
   Arrives Offer "offer-sdp"; Settles 0 (Returns "");
   Arrives Ice "candidate-3"; Settles 0 (Returns ""); Settles 0 (Returns "")].

(** The token typed in the input, once trimmed, is refused by
    [isValidToken] (or there is no input element to read). *)
Definition rejected_input (input : option string) : Prop :=
  match option_map trim input with
  | Some token => isValidToken (JSString token) = false
  | None => True
  end.

(** [session-cancel], sent by [resetState] when a socket already exists. *)
Definition cancel_if_socket (c : Comp) : list SocketMsg :=
  match socketRef c with
  | Some _ => [MsgSessionCancel (sessionToken c)]
  | None => []
  end.

(** The link is torn down: no connection, no channel, no queued
    candidate, no reception context, no listener left on the socket. *)
Definition torn_down (c : Comp) : Prop :=
  pcRef c = None /\ dcRef c = None /\ iceCandidateQueueRef c = []
  /\ recvChunksRef c = [] /\ recvMetaRef c = None /\ recvBytesRef c = 0%Z
  /\ match socketRef c with
     | Some s => wired s = None
     | None => True
     end.

(** A peer that joined with a valid token and waits for the other one. *)
Definition waiting_peer : Comp :=
  click_join (Some "1a2b3c4d5e6f7890") initial.

(** The guest of [guest_ready] once its channel is bound and open and one
    two-byte file has arrived in full. *)
Definition completed_guest : Comp :=
  receive [TextFrame (Obj late_meta); BinaryFrame late_chunk]
    (dc_onopen (pc_ondatachannel newDataChannel guest_ready)).

(** A host whose channel is open and who picked [files]. *)
Definition host_connected (files : list File) : Comp :=
  setSelectedFiles files
    (dc_onopen (on_ready fixed_offer (on_registered Host None waiting_peer))).

Definition file_a : File := mkFile "a.txt" "text/plain" [Byte.x01].

Definition file_b : File := mkFile "b.txt" "text/plain" [Byte.x02; Byte.x03].

Definition empty_file : File := mkFile "empty.txt" "text/plain" [].

(** Five full chunks of zero bytes. *)
Definition big_file : File :=
  mkFile "a.bin" "" (repeat Byte.x00 (5 * CHUNK_SIZE)).

(** The sender never suspended: it runs [n] times in a row. *)
Definition runs (n : nat) : list Act := repeat Run n.

(** The bytes of earlier files as the specification counts them: the sizes
    of the files before index [i]. *)
Definition bytes_before (files : list File) (i : nat) : nat :=
  sum_sizes (firstn i files).

(** A send of [big_file] then [file_a] on a link that drains nothing until
    the sender is suspended, then just enough (the 72 bytes of the first meta
    frame) to bring the buffer down to the threshold. *)
Definition congested_schedule : list Act := runs 6 ++ Drain 72 :: runs 2.

Definition congested_send : SendPC * Comp :=
  click_send plainTextBytes "" congested_schedule
    (host_connected [big_file; file_a]).

Definition threshold (c : Comp) : nat :=
  match dcRef c with
  | Some dc => bufferedAmountLowThreshold dc
  | None => 0
  end.

(** The guest of [guest_ready] once the host's channel reached it and
    opened. *)
Definition guest_open : Comp :=
  dc_onopen (pc_ondatachannel newDataChannel guest_ready).

(** The whole send of one empty file: the click, then the sender runs to
    completion (meta frame, end of [sendFile], end of the loop). *)
Definition empty_send : SendPC * Comp :=
  click_send plainTextBytes "" (runs 3) (host_connected [empty_file]).

(** ** Vocabulary of the sender's runs *)

(** The binary frames of the first [k] chunks of a file. *)
Definition chunk_frames (file : File) (k : nat) : list Frame :=
  map (fun j => BinaryFrame (chunk_at file j)) (seq 0 k).

(** The frames of the files before index [i]. *)
Definition sent_before (files : list File) (i : nat) : list Frame :=
  flat_map file_frames (firstn i files).

(** The sender is inside file [i] with [offset] bytes of it sent: [k]
    chunks went out after the meta frame. *)
Definition in_file (files : list File) (base : list Frame) (i offset : nat)
           (dc : DataChannel) : Prop :=
  exists file k,
    nth_error files i = Some file
    /\ offset = Nat.min (k * CHUNK_SIZE) (f_size file)
    /\ (k = 0 \/ (k - 1) * CHUNK_SIZE < f_size file)
    /\ sentFrames dc
       = base ++ sent_before files i
         ++ TextFrame (Obj (meta_of file)) :: chunk_frames file k.

(** What the channel has been handed, by where the sender stands, on a
    channel that is open and had [base] in its log at the click. *)
Definition sender_inv (files : list File) (base : list Frame)
           (s : SendPC * Comp) : Prop :=
  exists dc,
    dcRef (snd s) = Some dc
    /\ readyState dc = ChOpen
    /\ match fst s with
       | AtFile i =>
           i <= List.length files
           /\ sentFrames dc = base ++ sent_before files i
       | InLoop i offset => in_file files base i offset dc
       | AwaitLow i offset =>
           in_file files base i offset dc
           /\ exists file, nth_error files i = Some file /\ offset < f_size file
       | Finished =>
           sentFrames dc = base ++ flat_map file_frames files
       end.

(** The file as the receiver hands it to the user. *)
Definition blob_of (file : File) : Download :=
  mkDownload (or_default (f_name file) "download")
             (or_default (f_type file) "application/octet-stream")
             (f_content file).

(** A file the receiver can complete: it has a name and at least one
    byte. *)
Definition receivable (file : File) : Prop :=
  f_name file <> "" /\ 0 < f_size file.

(** The host's channel once open: nothing buffered, nothing sent. *)
Definition host_channel : DataChannel := mkDC ChOpen 0 (CHUNK_SIZE * 4) [].

(** [session-complete], as the sender emits it through
    [socketRef.current?.emit]. *)
Definition complete_if_socket (c : Comp) : list SocketMsg :=
  match socketRef c with
  | Some _ => [MsgSessionComplete (sessionTokenRef c)]
  | None => []
  end.

(** The send is under way, or it is over: status, selection and socket log
    in each case, for a click on a component in state [c0] with [n] files. *)
Definition send_running (c0 c : Comp) : Prop :=
  status c = Transferring
  /\ all_emitted c = all_emitted c0
  /\ socketRef c = socketRef c0
  /\ sessionTokenRef c = sessionTokenRef c0.

Definition send_over (c0 c : Comp) : Prop :=
  status c = Completed
  /\ selectedFiles c = []
  /\ currentFileIndex c = 0
  /\ all_emitted c = all_emitted c0 ++ complete_if_socket c0.

Definition sender_status_inv (n : nat) (c0 : Comp) (s : SendPC * Comp) : Prop :=
  match fst s with
  | AtFile i => if i =? n then send_over c0 (snd s) else send_running c0 (snd s)
  | InLoop _ _ => send_running c0 (snd s)
  | AwaitLow _ _ => send_running c0 (snd s)
  | Finished => send_over c0 (snd s)
  end.

(** The connection attempts on the relay socket after [ensureSocket]: a
    first one when the socket is created, one more when an existing socket
    is not connected, none when it is. *)
Definition connectCalls_after_ensure (c : Comp) : nat :=
  match socketRef c with
  | None => 1
  | Some s => if connected s then connectCalls s else S (connectCalls s)
  end.

(** ** Creating a session *)

(** What [fetch(SIGNALING_URL + "/api/create-session")] and [res.json()]
    give: a thrown error, a response that is not ok, or the session data. *)
Inductive CreateResponse : Type :=
| FetchThrows (message : string)
| ResponseNotOk
| Created (token : string) (expires : string).

(** [createSession()] up to [await fetch(...)]; a click handler of render
    [r]. *)
Definition createSession_begin (r : Render) (c : Comp) : Comp :=
  setLastAction ActCreate (resetState r c).

(** [createSession()] from the response on, with its [catch]. *)
Definition createSession_resume (r : Render) (resp : CreateResponse) (c : Comp)
  : Comp :=
  match resp with
  | FetchThrows message =>
      setStatus Error (setError (or_default message "Create session failed") c)
  | ResponseNotOk =>
      setStatus Error (setError "Failed to create session" c)
  | Created token expires =>
      let c := setSessionToken token c in
      let c := set_sessionTokenRef (Some token) c in
      let c := setExpiresAt (Some expires) c in
      let c := setStatus Waiting c in
      let c := ensureSocket c in
      match socketRef c with
      | Some s =>
          set_socketRef
            (Some (socket_emit (MsgRegister token) (wireSocketEvents r s))) c
      | None => c
      end
  end.

(** The token held in [sessionTokenRef] passes [isValidToken]. *)
Definition held_token_valid (c : Comp) : bool :=
  match sessionTokenRef c with
  | Some token => negb (token =? "")%string && isValidToken (JSString token)
  | None => false
  end.

Definition is_host (c : Comp) : bool :=
  match roleRef c with
  | Some Host => true
  | _ => false
  end.

(** ** Vocabulary of the signal listener's runs *)

(** A task that has not been past [await pc.setRemoteDescription]. *)
Definition quiet (t : Task) : Prop :=
  match t with
  | AwaitRemote _ _ => True
  | Returned => True
  | _ => False
  end.

(** A task that has seen its remote description applied. *)
Definition started (t : Task) : Prop :=
  match t with
  | AwaitRemote _ _ => False
  | _ => True
  end.

(** No remote description is set yet: every candidate that arrived is in
    the queue, after what the queue held, and none was handed to the
    connection. *)
Definition before_remote (queue0 : list string) (evs : list SignalEvent)
           (s : Signaling) : Prop :=
  exists pc,
    pcRef (sg_comp s) = Some pc
    /\ remoteDescription pc = None
    /\ Forall quiet (sg_tasks s)
    /\ sg_calls s = []
    /\ iceCandidateQueueRef (sg_comp s) = queue0 ++ arrived evs.

(** A remote description is set and invocation [k] is the one that saw it
    applied first: what it has handed to the connection so far, followed by
    what its loop has yet to visit, is [buffer]; the candidates handed over
    on arrival are [later]. *)
Definition flushing (k : nat) (buffer later : list string) (s : Signaling)
  : Prop :=
  exists pc,
    pcRef (sg_comp s) = Some pc
    /\ remoteDescription pc <> None
    /\ k < List.length (sg_tasks s)
    /\ started (task_of k s)
    /\ calls_by (FromQueue k) s
       ++ pending (iceCandidateQueueRef (sg_comp s)) (task_of k s)
       = buffer
    /\ calls_by OnArrival s = later.

(** The flush loop of a task is over. *)
Definition past_flush (t : Task) : Prop :=
  match t with
  | AwaitRemote _ _ => False
  | InFlush _ _ => False
  | _ => True
  end.

(** ** A channel that is not open *)

(** [!dc || dc.readyState !== "open"], on the channel the component holds. *)
Definition channel_not_open (c : Comp) : bool :=
  match dcRef c with
  | Some dc => negb (ChannelState_is_open (readyState dc))
  | None => true
  end.

Definition closed_channel : DataChannel := mkDC ChClosed 0 0 [].

(** A host whose channel closed after the files were selected. *)
Definition host_closed : Comp :=
  set_dcRef (Some closed_channel) (setSelectedFiles [file_a] initial).

(** ** The expiry countdown *)

(** What [updateCountdown] writes into [expiresIn]: the empty string,
    "expired", or [`${m}m ${s}s`] (with [NaN] for both when the date does not
    parse). *)
Inductive ExpiresIn : Type :=
| Blank
| Expired
| Remaining (m s : Z)
| RemainingNaN.

Section Countdown.

(** [new Date(text).getTime()]: the time in milliseconds, or [None] for
    [NaN]. *)
Variable getTime : string -> option Z.

(** [function updateCountdown()], with [Date.now()] given. *)
Definition updateCountdown (expires : option string) (now : Z) : ExpiresIn :=
  match expires with
  | None => Blank
  | Some text =>
      if (text =? "")%string then Blank
      else
        match getTime text with
        | None => RemainingNaN
        | Some t =>
            let diff := (t - now)%Z in
            if (diff <=? 0)%Z then Expired
            else Remaining (diff / 60000)%Z (Z.rem diff 60000 / 1000)%Z
        end
  end.

End Countdown.

(* ================================================================== *)
(** * Part II. Properties                                              *)
(* ================================================================== *)

(** ** Token validation *)

Lemma isHexDigit_alphabet (ch : ascii) :
  isHexDigit ch = existsb (Ascii.eqb ch) hex_alphabet.
Proof.
  destruct ch as [[] [] [] [] [] [] [] []]; reflexivity.
Qed.

Lemma isHexDigit_In (ch : ascii) :
  isHexDigit ch = true <-> In ch hex_alphabet.
Proof.
  rewrite isHexDigit_alphabet, existsb_exists. split.
  - intros [x [Hin Heq]]. apply Ascii.eqb_eq in Heq. now subst.
  - intros Hin. exists ch. split; [assumption | apply Ascii.eqb_refl].
Qed.

Lemma all_chars_Forall (s : string) :
  all_chars isHexDigit s = true <-> is_hex_string s.
Proof.
  unfold is_hex_string. induction s as [| ch s IH]; simpl.
  - split; [constructor | reflexivity].
  - rewrite andb_true_iff, IH, isHexDigit_In. split.
    + intros [H1 H2]. now constructor.
    + intros H. inversion H; subst. now split.
Qed.

Lemma isValidToken_string (s : string) :
  isValidToken (JSString s) = true <-> String.length s = 16 /\ is_hex_string s.
Proof.
  unfold isValidToken.
  destruct (String.length s =? 16) eqn:Hlen; simpl.
  - apply Nat.eqb_eq in Hlen. rewrite <- all_chars_Forall.
    destruct s as [| ch s]; [discriminate Hlen |]. unfold test_hex_plus.
    tauto.
  - apply Nat.eqb_neq in Hlen. split; [discriminate | tauto].
Qed.

(** C5. [isValidToken] accepts exactly the strings of 16 characters drawn
    from 0-9, a-f, A-F; every other value (a non-string, a string of another
    length, a string holding another character) is rejected.  The three
    examples of the specification are instances. *)
Theorem isValidToken_spec :
  (forall v : JSValue,
      isValidToken v = true <->
      exists s, v = JSString s /\ String.length s = 16 /\ is_hex_string s)
  /\ (forall v : JSValue, typeof_is_string v = false -> isValidToken v = false)
  /\ (forall s, String.length s <> 16 -> isValidToken (JSString s) = false)
  /\ (forall s, ~ is_hex_string s -> isValidToken (JSString s) = false)
  /\ isValidToken (JSString "abc") = false
  /\ isValidToken (JSString "0123456789abcdef") = true
  /\ isValidToken (JSString "0123456789ABCDEF") = true
  /\ isValidToken (JSString "0123456789abcdeg") = false.
Proof.
  repeat split; try reflexivity.
  - intros H. destruct v; try discriminate H.
    exists s. split; [reflexivity | now apply isValidToken_string].
  - intros [s [-> H]]. now apply isValidToken_string.
  - intros v H. destruct v; try reflexivity. discriminate H.
  - intros s H. apply not_true_is_false. intros Hv.
    apply isValidToken_string in Hv. tauto.
  - intros s H. apply not_true_is_false. intros Hv.
    apply isValidToken_string in Hv. tauto.
Qed.

(** ** The receiver *)

Lemma app_one_neq {A : Type} (l : list A) (x : A) : l ++ [x] <> l.
Proof.
  intros H. apply (f_equal (@List.length A)) in H.
  rewrite length_app in H. simpl in H. lia.
Qed.

Lemma storeChunk_buffers (chunk : list Byte.byte) (c : Comp) :
  recvChunksRef (storeChunk chunk c) = recvChunksRef c ++ [chunk]
  /\ recvBytesRef (storeChunk chunk c)
     = (recvBytesRef c + Z.of_nat (List.length chunk))%Z
  /\ recvMetaRef (storeChunk chunk c) = recvMetaRef c.
Proof.
  unfold storeChunk; cbn.
  destruct (recvMetaRef c) as [meta |] eqn:Hm; cbn;
    [| rewrite ?Hm; repeat split; reflexivity].
  destruct (size_reached _ _); cbn; [| rewrite ?Hm; repeat split; reflexivity].
  unfold emit_opt; cbn.
  destruct (socketRef c); cbn; rewrite ?Hm; repeat split; reflexivity.
Qed.

Lemma storeChunk_reached (chunk : list Byte.byte) (c : Comp) :
  declared_size_reached c (recvBytesRef c + Z.of_nat (List.length chunk)) ->
  finalized c (storeChunk chunk c).
Proof.
  intros [meta [size [Hm [Hs Hle]]]].
  unfold storeChunk, finalized; cbn. rewrite Hm; cbn. rewrite Hs; cbn.
  apply Z.leb_le in Hle. rewrite Hle.
  eexists. unfold emit_opt, all_emitted; cbn.
  destruct (socketRef c) eqn:Hsock; cbn; rewrite ?Hsock; cbn;
    repeat split; rewrite ?app_nil_r; reflexivity.
Qed.

Lemma storeChunk_not_reached (chunk : list Byte.byte) (c : Comp) :
  ~ declared_size_reached c (recvBytesRef c + Z.of_nat (List.length chunk)) ->
  not_finalized c (storeChunk chunk c).
Proof.
  intros Hn. unfold storeChunk, not_finalized; cbn.
  destruct (recvMetaRef c) as [meta |] eqn:Hm; cbn;
    [| repeat split; reflexivity].
  destruct (m_size meta) as [size |] eqn:Hs; cbn;
    [| repeat split; reflexivity].
  destruct (size <=? _)%Z eqn:Hle; [| cbn; repeat split; reflexivity].
  exfalso. apply Hn. exists meta, size. apply Z.leb_le in Hle. tauto.
Qed.

Lemma finalized_not_not_finalized (c c' : Comp) :
  finalized c c' -> not_finalized c c' -> False.
Proof.
  intros [blob [Hd _]] [Hd' _]. rewrite Hd' in Hd.
  symmetry in Hd. now apply app_one_neq in Hd.
Qed.

(** C3. On every binary frame the counter grows by the frame's length, and
    [storeChunk] finalizes the current file (one blob made of the buffered
    chunks, status completed, [session-complete] emitted) if and only if the
    counter has then reached or passed the size declared by the current meta
    object; while it is below, or no meta is set, nothing is finalized. *)
Theorem storeChunk_finalizes_iff :
  forall (chunk : list Byte.byte) (c : Comp),
    let c' := storeChunk chunk c in
    recvBytesRef c' = (recvBytesRef c + Z.of_nat (List.length chunk))%Z
    /\ (finalized c c' <-> declared_size_reached c (recvBytesRef c'))
    /\ (not_finalized c c' <-> ~ declared_size_reached c (recvBytesRef c')).
Proof.
  intros chunk c c'. subst c'.
  destruct (storeChunk_buffers chunk c) as [_ [Hb _]]. rewrite Hb.
  split; [reflexivity |].
  assert (Hdec : declared_size_reached c
                   (recvBytesRef c + Z.of_nat (List.length chunk))
                 \/ ~ declared_size_reached c
                      (recvBytesRef c + Z.of_nat (List.length chunk))).
  { unfold declared_size_reached.
    destruct (recvMetaRef c) as [meta |].
    - destruct (m_size meta) as [size |] eqn:Hs.
      + destruct (Z_le_gt_dec size
                    (recvBytesRef c + Z.of_nat (List.length chunk))) as [H | H].
        * left. exists meta, size. tauto.
        * right. intros [m [s [Hm [Hs' Hle]]]].
          injection Hm as <-. rewrite Hs in Hs'. injection Hs' as <-. lia.
      + right. intros [m [s [Hm [Hs' _]]]]. injection Hm as <-. congruence.
    - right. intros [m [s [Hm _]]]. discriminate Hm. }
  split; split.
  - intros Hf. destruct Hdec as [H | H]; [assumption |].
    exfalso. apply (finalized_not_not_finalized c (storeChunk chunk c) Hf).
    now apply storeChunk_not_reached.
  - apply storeChunk_reached.
  - intros Hn Hr.
    apply (finalized_not_not_finalized c (storeChunk chunk c)); [| assumption].
    now apply storeChunk_reached.
  - apply storeChunk_not_reached.
Qed.

Lemma not_finalized_refl (c : Comp) : not_finalized c c.
Proof. repeat split; reflexivity. Qed.

Lemma not_finalized_trans (c1 c2 c3 : Comp) :
  not_finalized c1 c2 -> not_finalized c2 c3 -> not_finalized c1 c3.
Proof.
  unfold not_finalized. intros [H1 [H2 H3]] [H4 [H5 H6]].
  repeat split; congruence.
Qed.

Lemma receive_binary_buffers (chunks : list (list Byte.byte)) :
  forall c : Comp,
    recvChunksRef (receive (map BinaryFrame chunks) c)
    = recvChunksRef c ++ chunks
    /\ recvBytesRef (receive (map BinaryFrame chunks) c)
       = (recvBytesRef c + Z.of_nat (total_length chunks))%Z
    /\ recvMetaRef (receive (map BinaryFrame chunks) c) = recvMetaRef c.
Proof.
  unfold receive, total_length.
  induction chunks as [| chunk chunks IH]; intros c; simpl.
  - rewrite app_nil_r, Z.add_0_r. repeat split; reflexivity.
  - destruct (IH (storeChunk chunk c)) as [H1 [H2 H3]].
    destruct (storeChunk_buffers chunk c) as [B1 [B2 B3]].
    rewrite H1, H2, H3, B1, B2, B3, <- app_assoc, length_app.
    repeat split; try reflexivity. lia.
Qed.

Lemma receive_binary_without_meta (chunks : list (list Byte.byte)) :
  forall c : Comp,
    recvMetaRef c = None ->
    not_finalized c (receive (map BinaryFrame chunks) c).
Proof.
  unfold receive.
  induction chunks as [| chunk chunks IH]; intros c Hm; simpl.
  - apply not_finalized_refl.
  - apply not_finalized_trans with (c2 := storeChunk chunk c).
    + apply storeChunk_not_reached.
      intros [meta [size [H _]]]. congruence.
    + apply IH. destruct (storeChunk_buffers chunk c) as [_ [_ H]]. congruence.
Qed.

Lemma meta_frame_resets (meta : FileMeta) (c : Comp) :
  meta_ok meta = true ->
  recvChunksRef (dc_onmessage (TextFrame (Obj meta)) c) = []
  /\ recvBytesRef (dc_onmessage (TextFrame (Obj meta)) c) = 0%Z
  /\ recvMetaRef (dc_onmessage (TextFrame (Obj meta)) c) = Some meta
  /\ downloads (dc_onmessage (TextFrame (Obj meta)) c) = downloads c.
Proof.
  intros H. unfold dc_onmessage. rewrite H. cbn. repeat split; reflexivity.
Qed.

(** C10, as the code has it.  Binary frames are appended to the chunk buffer
    and counted whether or not a meta object is set; while none is set no
    file is finalized, however many bytes are buffered; and the next
    meta-shaped text frame empties the buffer and zeroes the counter, so
    chunks received before it do not reach the next file. *)
Theorem binary_frames_before_meta :
  forall (chunks : list (list Byte.byte)) (c : Comp),
    let c' := receive (map BinaryFrame chunks) c in
    recvChunksRef c' = recvChunksRef c ++ chunks
    /\ recvBytesRef c' = (recvBytesRef c + Z.of_nat (total_length chunks))%Z
    /\ (recvMetaRef c = None -> not_finalized c c' /\ recvMetaRef c' = None)
    /\ (forall meta, meta_ok meta = true ->
          recvChunksRef (dc_onmessage (TextFrame (Obj meta)) c') = []
          /\ recvBytesRef (dc_onmessage (TextFrame (Obj meta)) c') = 0%Z
          /\ downloads (dc_onmessage (TextFrame (Obj meta)) c') = downloads c').
Proof.
  intros chunks c c'. subst c'.
  destruct (receive_binary_buffers chunks c) as [H1 [H2 H3]].
  split; [assumption |]. split; [assumption |]. split.
  - intros Hm. split.
    + now apply receive_binary_without_meta.
    + congruence.
  - intros meta Hok.
    destruct (meta_frame_resets meta (receive (map BinaryFrame chunks) c) Hok)
      as [R1 [R2 [_ R4]]].
    now repeat split.
Qed.

(** C10, the statement of the specification fails: a chunk that arrives
    before any meta frame is buffered, then dropped by the meta frame that
    follows; the file finalized afterwards holds the later chunk only. *)
Lemma early_chunk_not_carried :
  recvChunksRef (receive [BinaryFrame early_chunk] initial) = [early_chunk]
  /\ recvChunksRef
       (receive [BinaryFrame early_chunk; TextFrame (Obj late_meta)] initial)
     = []
  /\ recvBytesRef
       (receive [BinaryFrame early_chunk; TextFrame (Obj late_meta)] initial)
     = 0%Z
  /\ map d_bytes
       (downloads
          (receive [BinaryFrame early_chunk; TextFrame (Obj late_meta);
                    BinaryFrame late_chunk] initial))
     = [late_chunk].
Proof. repeat split; reflexivity. Qed.

(** ** Signaling: the ICE candidate queue *)

Lemma set_nth_length {A : Type} (x : A) (l : list A) :
  forall k, List.length (set_nth k x l) = List.length l.
Proof.
  induction l as [| y l IH]; intros [| k]; simpl; try reflexivity.
  now rewrite IH.
Qed.

Lemma nth_set_nth_same {A : Type} (x d : A) (l : list A) :
  forall k, k < List.length l -> nth k (set_nth k x l) d = x.
Proof.
  induction l as [| y l IH]; intros [| k] Hk; simpl in *; try lia.
  - reflexivity.
  - apply IH. lia.
Qed.

Lemma nth_set_nth_other {A : Type} (x d : A) (l : list A) :
  forall j k, j <> k -> nth k (set_nth j x l) d = nth k l d.
Proof.
  induction l as [| y l IH]; intros [| j] [| k] Hjk; simpl;
    try reflexivity; try congruence.
  apply IH. congruence.
Qed.

Lemma nth_error_nth_Returned (tasks : list Task) (k : nat) (t : Task) :
  nth_error tasks k = Some t ->
  nth k tasks Returned = t /\ k < List.length tasks.
Proof.
  intros H. split.
  - now apply nth_error_nth.
  - apply nth_error_Some. congruence.
Qed.

Lemma iterator_next_some (queue : list string) (it it' : Iterator)
      (candidate : string) :
  iterator_next queue it = Some (candidate, it') ->
  remaining queue it = candidate :: remaining queue it'.
Proof.
  destruct it as [index | [| x rest]]; simpl.
  - destruct (nth_error queue index) as [x |] eqn:Hn; [| discriminate].
    intros H. injection H as <- <-. simpl.
    revert index Hn. induction queue as [| y queue IH]; intros [| index] Hn;
      simpl in *; try discriminate.
    + injection Hn as ->. reflexivity.
    + now apply IH.
  - discriminate.
  - intros H. injection H as <- <-. reflexivity.
Qed.

Lemma iterator_next_none (queue : list string) (it : Iterator) :
  iterator_next queue it = None -> remaining queue it = [].
Proof.
  destruct it as [index | [| x rest]]; simpl.
  - destruct (nth_error queue index) as [x |] eqn:Hn; [discriminate |].
    intros _. apply skipn_all2. now apply nth_error_None.
  - reflexivity.
  - discriminate.
Qed.

Lemma pending_detach (queue : list string) (t : Task) :
  pending [] (detach queue t) = pending queue t.
Proof. destruct t as [| type [index | rest] | | |]; reflexivity. Qed.

Lemma started_detach (queue : list string) (t : Task) :
  started t -> started (detach queue t).
Proof. destruct t as [| type [index | rest] | | |]; trivial. Qed.

Lemma pending_not_in_flush (queue queue' : list string) (t : Task) :
  match t with InFlush _ _ => False | _ => True end ->
  pending queue t = [] /\ pending queue' t = [].
Proof. destruct t; simpl; intros H; try contradiction; split; reflexivity. Qed.

Lemma calls_by_app (who : Caller) (c : Comp) (tasks tasks' : list Task)
      (calls : list (Caller * string)) (caller : Caller) (candidate : string)
      (c' : Comp) :
  calls_by who (mkSignaling c' tasks' (calls ++ [(caller, candidate)]))
  = calls_by who (mkSignaling c tasks calls)
    ++ (if Caller_eqb caller who then [candidate] else []).
Proof.
  unfold calls_by. cbn [sg_calls]. rewrite filter_app, map_app. cbn [filter fst].
  destruct (Caller_eqb caller who); reflexivity.
Qed.

Lemma calls_by_same (who : Caller) (c c' : Comp) (tasks tasks' : list Task)
      (calls : list (Caller * string)) :
  calls_by who (mkSignaling c' tasks' calls)
  = calls_by who (mkSignaling c tasks calls).
Proof. reflexivity. Qed.

Lemma Caller_eqb_queue (j k : nat) :
  Caller_eqb (FromQueue j) (FromQueue k) = (j =? k).
Proof. reflexivity. Qed.


Lemma calls_filter_app (who caller : Caller) (candidate : string)
      (calls : list (Caller * string)) :
  map snd (filter (fun call => Caller_eqb (fst call) who)
             (calls ++ [(caller, candidate)]))
  = map snd (filter (fun call => Caller_eqb (fst call) who) calls)
    ++ (if Caller_eqb caller who then [candidate] else []).
Proof.
  rewrite filter_app, map_app. cbn [filter fst].
  destruct (Caller_eqb caller who); reflexivity.
Qed.

Lemma pc_addIceCandidate_effects (candidate : string) (c : Comp)
      (pc : PeerConnection) :
  pcRef c = Some pc ->
  pcRef (pc_addIceCandidate candidate c) = Some (addIceCandidate pc candidate)
  /\ iceCandidateQueueRef (pc_addIceCandidate candidate c)
     = iceCandidateQueueRef c.
Proof.
  intros H. unfold pc_addIceCandidate. rewrite H. split; reflexivity.
Qed.

Lemma emit_opt_keeps_link (m : SocketMsg) (c : Comp) :
  pcRef (emit_opt m c) = pcRef c
  /\ iceCandidateQueueRef (emit_opt m c) = iceCandidateQueueRef c.
Proof. unfold emit_opt. destruct (socketRef c); split; reflexivity. Qed.

(** The head of a flush loop, seen from the invocation that flushes the
    buffer. *)
Lemma flush_step_keeps_flushing
      (k j : nat) (type : SignalType) (it : Iterator)
      (buffer later : list string) (s : Signaling) :
  flushing k buffer later s ->
  j < List.length (sg_tasks s) ->
  (j = k -> task_of k s = InFlush type it) ->
  flushing k buffer later (flush_step j type it s).
Proof.
  intros [pc [Hpc [Hrd [Hk [Hst [Heq Hlater]]]]]] Hj Hjk.
  unfold flush_step.
  destruct (iterator_next (iceCandidateQueueRef (sg_comp s)) it)
    as [[candidate it'] |] eqn:Hnext.
  - destruct (pc_addIceCandidate_effects candidate (sg_comp s) pc Hpc)
      as [Hpc' Hq].
    exists (addIceCandidate pc candidate).
    unfold task_of, calls_by in *. cbn [sg_comp sg_tasks sg_calls].
    rewrite !calls_filter_app, Hq, set_nth_length.
    split; [exact Hpc' |]. split; [exact Hrd |]. split; [exact Hk |].
    cbn [Caller_eqb]. rewrite app_nil_r.
    destruct (Nat.eq_dec j k) as [Hjk' | Hne].
    + subst j. rewrite nth_set_nth_same by assumption.
      rewrite Nat.eqb_refl. split; [exact I |]. split; [| exact Hlater].
      rewrite (Hjk eq_refl) in Heq. cbn [pending] in *.
      rewrite (iterator_next_some _ _ _ _ Hnext) in Heq.
      rewrite <- app_assoc. exact Heq.
    + rewrite nth_set_nth_other by assumption.
      replace (j =? k) with false by (symmetry; now apply Nat.eqb_neq).
      rewrite app_nil_r. split; [exact Hst |]. split; [exact Heq | exact Hlater].
  - assert (Hgen : forall X : Task,
               started X ->
               pending [] X = [] ->
               flushing k buffer later
                 (mkSignaling (set_iceCandidateQueueRef [] (sg_comp s))
                    (set_nth j X
                       (map (detach (iceCandidateQueueRef (sg_comp s)))
                            (sg_tasks s)))
                    (sg_calls s))).
    { intros X HX HpX. exists pc.
      unfold task_of, calls_by in *. cbn [sg_comp sg_tasks sg_calls].
      rewrite set_nth_length, length_map.
      split; [exact Hpc |]. split; [exact Hrd |]. split; [exact Hk |].
      change (iceCandidateQueueRef (set_iceCandidateQueueRef [] (sg_comp s)))
        with (@nil string).
      destruct (Nat.eq_dec j k) as [Hjk' | Hne].
      - subst j. rewrite nth_set_nth_same by (now rewrite length_map).
        split; [exact HX |]. split; [| exact Hlater].
        rewrite HpX. rewrite (Hjk eq_refl) in Heq. cbn [pending] in Heq.
        rewrite (iterator_next_none _ _ Hnext) in Heq. exact Heq.
      - rewrite nth_set_nth_other by assumption.
        change Returned
          with (detach (iceCandidateQueueRef (sg_comp s)) Returned).
        rewrite map_nth. split; [now apply started_detach |].
        split; [| exact Hlater]. rewrite pending_detach. exact Heq. }
    destruct type; apply Hgen; try exact I; reflexivity.
Qed.


(** An invocation outside its loop moves on: nothing changes for the
    flush. *)
Lemma retask_keeps_flushing
      (k j : nat) (t X : Task) (c' : Comp) (pc' : PeerConnection)
      (buffer later : list string) (s : Signaling) :
  flushing k buffer later s ->
  nth_error (sg_tasks s) j = Some t ->
  match t with InFlush _ _ => False | _ => True end ->
  match X with InFlush _ _ => False | AwaitRemote _ _ => False | _ => True end ->
  pcRef c' = Some pc' ->
  remoteDescription pc' <> None ->
  iceCandidateQueueRef c' = iceCandidateQueueRef (sg_comp s) ->
  flushing k buffer later (mkSignaling c' (set_nth j X (sg_tasks s)) (sg_calls s)).
Proof.
  intros [pc [Hpc [Hrd [Hk [Hst [Heq Hlater]]]]]] Hnth Ht HX Hpc' Hrd' Hq.
  exists pc'. unfold task_of, calls_by in *. cbn [sg_comp sg_tasks sg_calls].
  rewrite set_nth_length, Hq.
  split; [exact Hpc' |]. split; [exact Hrd' |]. split; [exact Hk |].
  destruct (Nat.eq_dec j k) as [Hjk | Hne].
  - subst j. rewrite nth_set_nth_same by assumption.
    destruct (nth_error_nth_Returned _ _ _ Hnth) as [Hnk _].
    rewrite Hnk in Heq.
    split; [destruct X; try contradiction; exact I |].
    split; [| exact Hlater].
    destruct (pending_not_in_flush (iceCandidateQueueRef (sg_comp s)) [] t Ht)
      as [Hp _].
    rewrite Hp in Heq.
    replace (pending (iceCandidateQueueRef (sg_comp s)) X) with (@nil string);
      [exact Heq |].
    destruct X; try contradiction; reflexivity.
  - rewrite nth_set_nth_other by assumption.
    split; [exact Hst |]. split; [exact Heq | exact Hlater].
Qed.

Lemma arrived_one (e : SignalEvent) :
  arrived [e] = match e with Arrives Ice data => [data] | _ => [] end.
Proof.
  unfold arrived. cbn [flat_map].
  destruct e as [[| | |] data | k outcome]; reflexivity.
Qed.

(** Once a remote description is set, every event keeps the account of the
    flush, and a candidate that arrives is handed over on arrival. *)
Lemma step_keeps_flushing
      (k : nat) (buffer later : list string) (e : SignalEvent) (s : Signaling) :
  flushing k buffer later s ->
  flushing k buffer (later ++ arrived [e]) (signal_step e s).
Proof.
  intros Hfl. rewrite arrived_one.
  pose proof Hfl as [pc [Hpc [Hrd [Hk [Hst [Heq Hlater]]]]]].
  destruct e as [type data | j outcome]; cbn [signal_step].
  - (* a message arrives *)
    unfold arrive. rewrite Hpc.
    destruct type.
    + rewrite app_nil_r. exists pc.
      unfold task_of, calls_by in *. cbn [sg_comp sg_tasks sg_calls].
      rewrite length_app, app_nth1 by assumption. cbn [List.length].
      split; [exact Hpc |]. split; [exact Hrd |]. split; [lia |].
      split; [exact Hst |]. split; [exact Heq | exact Hlater].
    + rewrite app_nil_r. exists pc.
      unfold task_of, calls_by in *. cbn [sg_comp sg_tasks sg_calls].
      rewrite length_app, app_nth1 by assumption. cbn [List.length].
      split; [exact Hpc |]. split; [exact Hrd |]. split; [lia |].
      split; [exact Hst |]. split; [exact Heq | exact Hlater].
    + destruct (remoteDescription pc) as [rd |] eqn:Hrd'; [| congruence].
      destruct (pc_addIceCandidate_effects data (sg_comp s) pc Hpc)
        as [Hpc' Hq].
      exists (addIceCandidate pc data).
      unfold task_of, calls_by in *. cbn [sg_comp sg_tasks sg_calls].
      rewrite !calls_filter_app, Hq. cbn [Caller_eqb]. rewrite app_nil_r.
      split; [exact Hpc' |].
      split; [cbn [addIceCandidate remoteDescription]; congruence |].
      split; [exact Hk |]. split; [exact Hst |]. split; [exact Heq |].
      now rewrite Hlater.
    + rewrite app_nil_r. exact Hfl.
  - (* a promise settles *)
    rewrite app_nil_r. unfold settle.
    destruct (nth_error (sg_tasks s) j) as [t |] eqn:Hnth; [| exact Hfl].
    destruct (nth_error_nth_Returned _ _ _ Hnth) as [Hnj Hj].
    destruct t as [type data | type it | | answer |].
    + (* await setRemoteDescription *)
      assert (Hjk : j <> k).
      { intros ->. unfold task_of in Hst. rewrite Hnj in Hst. exact Hst. }
      destruct outcome as [v | message].
      * apply flush_step_keeps_flushing; [| exact Hj | congruence].
        exists (withRemote data pc).
        unfold task_of, calls_by in *. cbn [sg_comp sg_tasks sg_calls].
        unfold pc_remoteApplied. rewrite Hpc.
        split; [reflexivity |]. split; [discriminate |]. split; [exact Hk |].
        split; [exact Hst |]. split; [exact Heq | exact Hlater].
      * apply (retask_keeps_flushing k j (AwaitRemote type data) Returned _ pc);
          try assumption; try exact I; reflexivity.
    + (* inside the flush loop *)
      apply flush_step_keeps_flushing; [exact Hfl | exact Hj |].
      intros ->. exact Hnj.
    + (* await createAnswer *)
      destruct outcome as [answer | message].
      * apply (retask_keeps_flushing k j AwaitCreateAnswer (AwaitSetLocal answer)
                 _ pc); try assumption; try exact I; reflexivity.
      * apply (retask_keeps_flushing k j AwaitCreateAnswer Returned _ pc);
          try assumption; try exact I; reflexivity.
    + (* await setLocalDescription *)
      destruct outcome as [v | message].
      * destruct (emit_opt_keeps_link
                    (MsgSignal (sessionTokenRef (pc_localApplied answer (sg_comp s)))
                               Answer answer)
                    (pc_localApplied answer (sg_comp s))) as [E1 E2].
        apply (retask_keeps_flushing k j (AwaitSetLocal answer) Returned _
                 (withLocal answer pc)); try assumption; try exact I.
        -- rewrite E1. unfold pc_localApplied. rewrite Hpc. reflexivity.
        -- rewrite E2. unfold pc_localApplied. rewrite Hpc. reflexivity.
      * apply (retask_keeps_flushing k j (AwaitSetLocal answer) Returned _ pc);
          try assumption; try exact I; reflexivity.
    + exact Hfl.
Qed.


Lemma set_nth_set_nth {A : Type} (x y : A) (l : list A) :
  forall k, set_nth k x (set_nth k y l) = set_nth k x l.
Proof.
  induction l as [| z l IH]; intros [| k]; simpl; try reflexivity.
  now rewrite IH.
Qed.

Lemma map_set_nth {A B : Type} (f : A -> B) (y : A) (l : list A) :
  forall k, map f (set_nth k y l) = set_nth k (f y) (map f l).
Proof.
  induction l as [| z l IH]; intros [| k]; simpl; try reflexivity.
  now rewrite IH.
Qed.

Lemma Forall_set_nth {A : Type} (P : A -> Prop) (x : A) (l : list A) :
  forall k, P x -> Forall P l -> Forall P (set_nth k x l).
Proof.
  induction l as [| z l IH]; intros [| k] Hx Hl; simpl.
  - constructor.
  - constructor.
  - inversion Hl; subst. now constructor.
  - inversion Hl; subst. constructor; [assumption | now apply IH].
Qed.

(** The tasks of the state do not matter to the loop of invocation [j]
    beyond the place of [j] itself. *)
Lemma flush_step_own_task
      (j : nat) (type : SignalType) (it : Iterator) (Y : Task)
      (c : Comp) (tasks : list Task) (calls : list (Caller * string)) :
  flush_step j type it (mkSignaling c (set_nth j Y tasks) calls)
  = flush_step j type it (mkSignaling c tasks calls).
Proof.
  unfold flush_step. cbn [sg_comp sg_tasks sg_calls].
  destruct (iterator_next (iceCandidateQueueRef c) it) as [[candidate it'] |].
  - now rewrite set_nth_set_nth.
  - rewrite map_set_nth, !set_nth_set_nth. reflexivity.
Qed.

Lemma arrived_app (evs1 evs2 : list SignalEvent) :
  arrived (evs1 ++ evs2) = arrived evs1 ++ arrived evs2.
Proof. unfold arrived. apply flat_map_app. Qed.

(** While no remote description is set, an event either keeps it so, with
    every candidate queued, or is the settlement that applies one: the
    invocation that awaited it starts the flush in the same turn. *)
Lemma step_before_remote
      (queue0 : list string) (evs : list SignalEvent) (e : SignalEvent)
      (s : Signaling) :
  before_remote queue0 evs s ->
  before_remote queue0 (evs ++ [e]) (signal_step e s)
  \/ exists k v,
      e = Settles k (Returns v)
      /\ flushing k (iceCandidateQueueRef (sg_comp s)) [] (signal_step e s)
      /\ sg_calls (signal_step e s)
         = map (pair (FromQueue k)) (firstn 1 (iceCandidateQueueRef (sg_comp s))).
Proof.
  intros [pc [Hpc [Hrd [Hq [Hcalls Hqueue]]]]].
  unfold before_remote.
  rewrite arrived_app, arrived_one, app_assoc, <- Hqueue.
  destruct e as [type data | j outcome]; cbn [signal_step].
  - left. unfold arrive. rewrite Hpc.
    destruct type.
    + exists pc. cbn [sg_comp sg_tasks sg_calls]. rewrite app_nil_r.
      split; [exact Hpc |]. split; [exact Hrd |].
      split; [apply Forall_app; split; [exact Hq | now repeat constructor] |].
      split; [exact Hcalls | reflexivity].
    + exists pc. cbn [sg_comp sg_tasks sg_calls]. rewrite app_nil_r.
      split; [exact Hpc |]. split; [exact Hrd |].
      split; [apply Forall_app; split; [exact Hq | now repeat constructor] |].
      split; [exact Hcalls | reflexivity].
    + rewrite Hrd. exists pc. cbn [sg_comp sg_tasks sg_calls].
      split; [exact Hpc |]. split; [exact Hrd |]. split; [exact Hq |].
      split; [exact Hcalls | reflexivity].
    + exists pc. rewrite app_nil_r.
      split; [exact Hpc |]. split; [exact Hrd |]. split; [exact Hq |].
      split; [exact Hcalls | reflexivity].
  - rewrite app_nil_r. unfold settle.
    destruct (nth_error (sg_tasks s) j) as [t |] eqn:Hnth.
    2: { left. exists pc. now repeat split. }
    destruct (nth_error_nth_Returned _ _ _ Hnth) as [Hnj Hj].
    assert (Ht : quiet t).
    { rewrite Forall_forall in Hq. apply Hq. eapply nth_error_In. exact Hnth. }
    destruct t as [type data | type it | | answer |]; try contradiction.
    + destruct outcome as [v | message].
      * right. exists j, v. split; [reflexivity |].
        rewrite <- (flush_step_own_task j type (Live 0) (InFlush type (Live 0))).
        split.
        -- apply flush_step_keeps_flushing.
           ++ exists (withRemote data pc).
              unfold task_of, calls_by. cbn [sg_comp sg_tasks sg_calls].
              unfold pc_remoteApplied. rewrite Hpc, Hcalls, set_nth_length.
              rewrite nth_set_nth_same by assumption.
              split; [reflexivity |]. split; [discriminate |].
              split; [exact Hj |]. split; [exact I |].
              split; reflexivity.
           ++ cbn [sg_tasks]. now rewrite set_nth_length.
           ++ intros _. unfold task_of. cbn [sg_tasks].
              now apply nth_set_nth_same.
        -- rewrite flush_step_own_task. unfold flush_step.
           cbn [sg_comp sg_tasks sg_calls].
           assert (Hsame : iceCandidateQueueRef (pc_remoteApplied data (sg_comp s))
                           = iceCandidateQueueRef (sg_comp s)).
           { unfold pc_remoteApplied. rewrite Hpc. reflexivity. }
           rewrite Hsame, Hcalls. cbn [iterator_next].
           destruct (iceCandidateQueueRef (sg_comp s)) as [| x rest];
             cbn [nth_error]; [destruct type |]; reflexivity.
      * left. exists pc. cbn [sg_comp sg_tasks sg_calls].
        split; [exact Hpc |]. split; [exact Hrd |].
        split; [apply Forall_set_nth; [exact I | exact Hq] |].
        split; [exact Hcalls | reflexivity].
    + left. exists pc. now repeat split.
Qed.

Lemma signal_run_snoc (evs : list SignalEvent) (e : SignalEvent) (s : Signaling) :
  signal_run (evs ++ [e]) s = signal_step e (signal_run evs s).
Proof. unfold signal_run. now rewrite fold_left_app. Qed.

(** The two phases of every run: before a remote description is set, and
    from the settlement that applies one. *)
Lemma signal_run_phases (c : Comp) (pc : PeerConnection) (evs : list SignalEvent) :
  pcRef c = Some pc ->
  remoteDescription pc = None ->
  before_remote (iceCandidateQueueRef c) evs (signal_run evs (signaling c))
  \/ exists evs1 k v evs2,
      evs = evs1 ++ Settles k (Returns v) :: evs2
      /\ before_remote (iceCandidateQueueRef c) evs1
           (signal_run evs1 (signaling c))
      /\ sg_calls (signal_run (evs1 ++ [Settles k (Returns v)]) (signaling c))
         = map (pair (FromQueue k))
               (firstn 1 (iceCandidateQueueRef c ++ arrived evs1))
      /\ flushing k (iceCandidateQueueRef c ++ arrived evs1) (arrived evs2)
           (signal_run evs (signaling c)).
Proof.
  intros Hpc Hrd. induction evs as [| e evs IH] using rev_ind.
  - left. exists pc. cbn. rewrite app_nil_r. now repeat split.
  - rewrite signal_run_snoc. destruct IH as [Hb | [evs1 [k [v [evs2 H]]]]].
    + destruct (step_before_remote _ _ e _ Hb) as [Hb' | [k [v [He [Hfl Hc]]]]].
      * now left.
      * right. exists evs, k, v, []. subst e.
        pose proof Hb as [pc' [_ [_ [_ [_ Hqueue]]]]].
        rewrite signal_run_snoc, <- Hqueue.
        split; [reflexivity |]. split; [exact Hb |]. split; [exact Hc |].
        exact Hfl.
    + destruct H as [Hevs [Hb [Hc Hfl]]].
      right. exists evs1, k, v, (evs2 ++ [e]).
      split; [rewrite Hevs, <- app_assoc; reflexivity |].
      split; [exact Hb |]. split; [exact Hc |].
      rewrite arrived_app. now apply step_keeps_flushing.
Qed.


Lemma remaining_nil_next (queue : list string) (it : Iterator) :
  remaining queue it = [] -> iterator_next queue it = None.
Proof.
  destruct it as [index | [| x rest]]; simpl; intros H;
    try reflexivity; try discriminate.
  destruct (nth_error queue index) as [x |] eqn:Hn; [| reflexivity].
  exfalso. revert index H Hn.
  induction queue as [| y queue IH]; intros [| index] H Hn; simpl in *;
    try discriminate.
  now apply (IH index).
Qed.

Lemma settle_keeps_past (k : nat) (outcome : Outcome string) (s : Signaling) :
  k < List.length (sg_tasks s) ->
  past_flush (task_of k s) ->
  past_flush (task_of k (settle k outcome s)).
Proof.
  intros Hk Hp. unfold settle, task_of in *.
  destruct (nth_error (sg_tasks s) k) as [t |] eqn:Hnth; [| exact Hp].
  destruct (nth_error_nth_Returned _ _ _ Hnth) as [Hnk _].
  rewrite Hnk in Hp.
  destruct t as [type data | type it | | answer |]; try contradiction.
  - destruct outcome; cbn [sg_tasks]; rewrite nth_set_nth_same by assumption;
      exact I.
  - destruct outcome; cbn [sg_tasks]; rewrite nth_set_nth_same by assumption;
      exact I.
  - rewrite Hnk. exact I.
Qed.

(** Every settlement of the flushing invocation, resolved or rejected,
    moves its loop by one candidate: after as many settlements as there are
    candidates left, and one more, the loop is over. *)
Lemma flush_completes (k : nat) (outcome : Outcome string) (m : nat) :
  forall (buffer later : list string) (s : Signaling),
    flushing k buffer later s ->
    List.length (pending (iceCandidateQueueRef (sg_comp s)) (task_of k s)) <= m ->
    past_flush
      (task_of k (signal_run (repeat (Settles k outcome) (S m)) s)).
Proof.
  induction m as [| m IH]; intros buffer later s Hfl Hlen.
  - cbn [repeat signal_run fold_left signal_step].
    pose proof Hfl as [pc [_ [_ [Hk [Hst _]]]]].
    destruct (task_of k s) as [type data | type it | | answer |] eqn:Ht;
      try contradiction;
      try (apply settle_keeps_past; [exact Hk | rewrite Ht; exact I]).
    unfold settle. unfold task_of in Ht.
    assert (Hnth : nth_error (sg_tasks s) k = Some (InFlush type it)).
    { rewrite <- Ht. now apply nth_error_nth'. }
    rewrite Hnth. unfold flush_step.
    cbn [pending] in Hlen.
    rewrite (remaining_nil_next _ it)
      by (destruct (remaining _ it); [reflexivity | simpl in Hlen; lia]).
    unfold task_of.
    destruct type; cbn [sg_tasks];
      rewrite nth_set_nth_same by (now rewrite length_map); exact I.
  - change (repeat (Settles k outcome) (S (S m)))
      with (Settles k outcome :: repeat (Settles k outcome) (S m)).
    change (signal_run (Settles k outcome :: repeat (Settles k outcome) (S m)) s)
      with (signal_run (repeat (Settles k outcome) (S m))
              (signal_step (Settles k outcome) s)).
    pose proof (step_keeps_flushing k buffer later (Settles k outcome) s Hfl)
      as Hfl'.
    apply (IH buffer (later ++ arrived [Settles k outcome]) _ Hfl').
    pose proof Hfl as [pc [Hpc [_ [Hk [Hst _]]]]].
    cbn [signal_step].
    destruct (task_of k s) as [type data | type it | | answer |] eqn:Ht;
      try contradiction.
    + (* in the loop *)
      unfold task_of in Ht.
      assert (Hnth : nth_error (sg_tasks s) k = Some (InFlush type it)).
      { rewrite <- Ht. now apply nth_error_nth'. }
      unfold settle. rewrite Hnth. unfold flush_step.
      cbn [pending] in Hlen.
      destruct (iterator_next (iceCandidateQueueRef (sg_comp s)) it)
        as [[candidate it'] |] eqn:Hnext.
      * destruct (pc_addIceCandidate_effects candidate (sg_comp s) pc Hpc)
          as [_ Hq].
        unfold task_of. cbn [sg_comp sg_tasks].
        rewrite nth_set_nth_same by assumption. cbn [pending]. rewrite Hq.
        rewrite (iterator_next_some _ _ _ _ Hnext) in Hlen. simpl in Hlen. lia.
      * unfold task_of.
        destruct type; cbn [sg_comp sg_tasks];
          rewrite nth_set_nth_same by (now rewrite length_map);
          cbn [pending List.length]; lia.
    + assert (Hp : past_flush (task_of k (settle k outcome s)))
        by (apply settle_keeps_past; [exact Hk | rewrite Ht; exact I]).
      destruct (task_of k (settle k outcome s)); try contradiction;
        cbn [pending List.length]; lia.
    + assert (Hp : past_flush (task_of k (settle k outcome s)))
        by (apply settle_keeps_past; [exact Hk | rewrite Ht; exact I]).
      destruct (task_of k (settle k outcome s)); try contradiction;
        cbn [pending List.length]; lia.
    + assert (Hp : past_flush (task_of k (settle k outcome s)))
        by (apply settle_keeps_past; [exact Hk | rewrite Ht; exact I]).
      destruct (task_of k (settle k outcome s)); try contradiction;
        cbn [pending List.length]; lia.
Qed.

Lemma flushing_past (k : nat) (buffer later : list string) (s : Signaling) :
  flushing k buffer later s ->
  past_flush (task_of k s) ->
  calls_by (FromQueue k) s = buffer.
Proof.
  intros [pc [_ [_ [_ [_ [Heq _]]]]]] Hp.
  destruct (task_of k s); try contradiction;
    cbn [pending] in Heq; now rewrite app_nil_r in Heq.
Qed.

Lemma signal_run_app (evs1 evs2 : list SignalEvent) (s : Signaling) :
  signal_run (evs1 ++ evs2) s = signal_run evs2 (signal_run evs1 s).
Proof. unfold signal_run. apply fold_left_app. Qed.

Lemma flushing_run (k : nat) (evs : list SignalEvent) :
  forall (buffer later : list string) (s : Signaling),
    flushing k buffer later s ->
    flushing k buffer (later ++ arrived evs) (signal_run evs s).
Proof.
  induction evs as [| e evs IH]; intros buffer later s Hfl.
  - cbn. now rewrite app_nil_r.
  - change (e :: evs) with ([e] ++ evs).
    rewrite arrived_app, app_assoc.
    change (signal_run ([e] ++ evs) s)
      with (signal_run evs (signal_step e s)).
    apply IH. now apply step_keeps_flushing.
Qed.


(** C1.  The signal listener is followed through its suspensions, with
    signal messages arriving and awaited promises settling in any order and
    with any outcome, from a page whose peer connection has no remote
    description.  As long as none is set, every candidate that arrived is in
    the queue, in arrival order, and none was handed to the connection.
    From the settlement that applies a remote description on, the invocation
    that awaited it flushes the buffer (the queue as it was at that moment):
    it hands over the first buffered candidate in that same turn, and what
    it has handed over plus what its loop has yet to visit is the buffer, in
    arrival order, at every later moment; when its loop is over the whole
    buffer has been handed over, and the loop is over after finitely many
    settlements of its awaits, rejected or not.  Candidates that arrive
    after the remote description is set are handed over on arrival (so they
    may come between two buffered candidates). *)
Theorem ice_candidates_buffered_then_flushed :
  forall (c : Comp) (pc : PeerConnection) (evs : list SignalEvent),
    pcRef c = Some pc ->
    remoteDescription pc = None ->
    (exists pc',
        pcRef (sg_comp (signal_run evs (signaling c))) = Some pc'
        /\ remoteDescription pc' = None
        /\ iceCandidateQueueRef (sg_comp (signal_run evs (signaling c)))
           = iceCandidateQueueRef c ++ arrived evs
        /\ sg_calls (signal_run evs (signaling c)) = [])
    \/ (exists evs1 k v evs2 pc',
          evs = evs1 ++ Settles k (Returns v) :: evs2
          /\ iceCandidateQueueRef (sg_comp (signal_run evs1 (signaling c)))
             = iceCandidateQueueRef c ++ arrived evs1
          /\ sg_calls (signal_run evs1 (signaling c)) = []
          /\ sg_calls
               (signal_run (evs1 ++ [Settles k (Returns v)]) (signaling c))
             = map (pair (FromQueue k))
                   (firstn 1 (iceCandidateQueueRef c ++ arrived evs1))
          /\ pcRef (sg_comp (signal_run evs (signaling c))) = Some pc'
          /\ remoteDescription pc' <> None
          /\ calls_by (FromQueue k) (signal_run evs (signaling c))
             ++ pending (iceCandidateQueueRef (sg_comp (signal_run evs (signaling c))))
                        (task_of k (signal_run evs (signaling c)))
             = iceCandidateQueueRef c ++ arrived evs1
          /\ (past_flush (task_of k (signal_run evs (signaling c))) ->
              calls_by (FromQueue k) (signal_run evs (signaling c))
              = iceCandidateQueueRef c ++ arrived evs1)
          /\ calls_by OnArrival (signal_run evs (signaling c)) = arrived evs2
          /\ (forall outcome, exists n,
                 calls_by (FromQueue k)
                   (signal_run (evs ++ repeat (Settles k outcome) n)
                      (signaling c))
                 = iceCandidateQueueRef c ++ arrived evs1)).
Proof.
  intros c pc evs Hpc Hrd.
  destruct (signal_run_phases c pc evs Hpc Hrd)
    as [Hb | [evs1 [k [v [evs2 [Hevs [Hb [Hfirst Hfl]]]]]]]].
  - left. destruct Hb as [pc' [H1 [H2 [_ [H4 H5]]]]].
    exists pc'. split; [exact H1 |]. split; [exact H2 |].
    split; [exact H5 | exact H4].
  - right. destruct Hb as [pc1 [_ [_ [_ [B4 B5]]]]].
    pose proof Hfl as [pc' [F1 [F2 [F3 [F4 [F5 F6]]]]]].
    exists evs1, k, v, evs2, pc'.
    split; [exact Hevs |]. split; [exact B5 |]. split; [exact B4 |].
    split; [exact Hfirst |]. split; [exact F1 |]. split; [exact F2 |].
    split; [exact F5 |].
    split; [intros Hp; now apply (flushing_past k _ (arrived evs2)) |].
    split; [exact F6 |].
    intros outcome.
    exists (S (List.length
                 (pending
                    (iceCandidateQueueRef (sg_comp (signal_run evs (signaling c))))
                    (task_of k (signal_run evs (signaling c)))))).
    rewrite signal_run_app.
    apply (flushing_past k _
             (arrived evs2
              ++ arrived
                   (repeat (Settles k outcome)
                      (S (List.length
                            (pending
                               (iceCandidateQueueRef
                                  (sg_comp (signal_run evs (signaling c))))
                               (task_of k (signal_run evs (signaling c))))))))).
    + now apply flushing_run.
    + apply (flush_completes k outcome _
               (iceCandidateQueueRef c ++ arrived evs1) (arrived evs2));
        [exact Hfl | lia].
Qed.

(** C1 at work: a guest receives two candidates, then the offer; a third
    candidate arrives while the flush is suspended on its first call. *)
Lemma ice_candidates_buffered_then_flushed_witness :
  (exists pc',
        pcRef (sg_comp (signal_run early_signals (signaling guest_ready))) = Some pc'
        /\ remoteDescription pc' = None
        /\ iceCandidateQueueRef (sg_comp (signal_run early_signals (signaling guest_ready)))
           = iceCandidateQueueRef guest_ready ++ arrived early_signals
        /\ sg_calls (signal_run early_signals (signaling guest_ready)) = [])
    \/ (exists evs1 k v evs2 pc',
          early_signals = evs1 ++ Settles k (Returns v) :: evs2
          /\ iceCandidateQueueRef (sg_comp (signal_run evs1 (signaling guest_ready)))
             = iceCandidateQueueRef guest_ready ++ arrived evs1
          /\ sg_calls (signal_run evs1 (signaling guest_ready)) = []
          /\ sg_calls
               (signal_run (evs1 ++ [Settles k (Returns v)]) (signaling guest_ready))
             = map (pair (FromQueue k))
                   (firstn 1 (iceCandidateQueueRef guest_ready ++ arrived evs1))
          /\ pcRef (sg_comp (signal_run early_signals (signaling guest_ready))) = Some pc'
          /\ remoteDescription pc' <> None
          /\ calls_by (FromQueue k) (signal_run early_signals (signaling guest_ready))
             ++ pending (iceCandidateQueueRef (sg_comp (signal_run early_signals (signaling guest_ready))))
                        (task_of k (signal_run early_signals (signaling guest_ready)))
             = iceCandidateQueueRef guest_ready ++ arrived evs1
          /\ (past_flush (task_of k (signal_run early_signals (signaling guest_ready))) ->
              calls_by (FromQueue k) (signal_run early_signals (signaling guest_ready))
              = iceCandidateQueueRef guest_ready ++ arrived evs1)
          /\ calls_by OnArrival (signal_run early_signals (signaling guest_ready)) = arrived evs2
          /\ (forall outcome, exists n,
                 calls_by (FromQueue k)
                   (signal_run (early_signals ++ repeat (Settles k outcome) n)
                      (signaling guest_ready))
                 = iceCandidateQueueRef guest_ready ++ arrived evs1)).
Proof.
  apply (ice_candidates_buffered_then_flushed guest_ready guest_pc
           early_signals); reflexivity.
Defined.

(** The calls of that run, in call order: the late candidate is handed over
    between the two buffered ones, which keep their order. *)
Lemma late_candidate_overtakes :
  sg_calls (signal_run early_signals (signaling guest_ready))
  = [(FromQueue 0, "candidate-1"); (OnArrival, "candidate-3");
     (FromQueue 0, "candidate-2")]
  /\ calls_by (FromQueue 0) (signal_run early_signals (signaling guest_ready))
     = ["candidate-1"; "candidate-2"]
  /\ iceCandidateQueueRef
       (sg_comp (signal_run early_signals (signaling guest_ready))) = []
  /\ sg_tasks (signal_run early_signals (signaling guest_ready))
     = [AwaitCreateAnswer].
Proof.
  split; [vm_compute; reflexivity |]. split; [vm_compute; reflexivity |].
  split; vm_compute; reflexivity.
Qed.

(** ** Joining with a malformed token *)

Lemma resetState_effects (r : Render) (c : Comp) :
  status (resetState r c) = Idle
  /\ error (resetState r c) = ""
  /\ torn_down (resetState r c)
  /\ all_connectCalls (resetState r c) = all_connectCalls c
  /\ all_emitted (resetState r c)
     = all_emitted c
       ++ match socketRef c with
          | Some _ => [MsgSessionCancel (r_sessionToken r)]
          | None => []
          end
  /\ (socketRef c = None <-> socketRef (resetState r c) = None)
  /\ sessionTokenRef (resetState r c) = sessionTokenRef c.
Proof.
  unfold resetState, torn_down, all_connectCalls, all_emitted; cbn.
  destruct (socketRef c) as [s |] eqn:Hs; cbn.
  - repeat split; try reflexivity; discriminate.
  - rewrite Hs. repeat split; reflexivity.
Qed.

Lemma joinSession_rejected (input : option string) (c : Comp) :
  rejected_input input ->
  click_join input c
  = invalidToken (setLastAction ActJoin (resetState (render c) c)).
Proof.
  intros Hrej. unfold click_join, joinSession, rejected_input in *.
  destruct (option_map trim input) as [token |]; [| reflexivity].
  rewrite Hrej. now rewrite orb_true_r.
Qed.

Lemma invalidToken_keeps (c : Comp) :
  all_connectCalls (invalidToken (setLastAction ActJoin c)) = all_connectCalls c
  /\ all_emitted (invalidToken (setLastAction ActJoin c)) = all_emitted c
  /\ socketRef (invalidToken (setLastAction ActJoin c)) = socketRef c
  /\ sessionTokenRef (invalidToken (setLastAction ActJoin c)) = sessionTokenRef c
  /\ status (invalidToken (setLastAction ActJoin c)) = Error
  /\ error (invalidToken (setLastAction ActJoin c)) = "Invalid token.".
Proof. repeat split; reflexivity. Qed.

(** C9, as the code has it.  When the trimmed input is not a valid token,
    [joinSession] ends in status error with the message "Invalid token.";
    it creates no socket, starts no connection attempt and emits no
    [register]; the one message it can emit is the [session-cancel] of the
    [resetState] it begins with, and only when a socket already exists. *)
Theorem joinSession_rejects_locally :
  forall (input : option string) (c : Comp),
    rejected_input input ->
    status (click_join input c) = Error
    /\ error (click_join input c) = "Invalid token."
    /\ all_connectCalls (click_join input c) = all_connectCalls c
    /\ (socketRef c = None -> socketRef (click_join input c) = None)
    /\ all_emitted (click_join input c) = all_emitted c ++ cancel_if_socket c
    /\ sessionTokenRef (click_join input c) = sessionTokenRef c.
Proof.
  intros input c Hrej.
  rewrite (joinSession_rejected input c Hrej).
  destruct (resetState_effects (render c) c)
    as [_ [_ [_ [Hcalls [Hem [Hsock Href]]]]]].
  destruct (invalidToken_keeps (resetState (render c) c))
    as [K1 [K2 [K3 [K4 [K5 K6]]]]].
  split; [exact K5 |]. split; [exact K6 |].
  split; [now rewrite K1 |].
  split; [intros Hn; rewrite K3; now apply Hsock |].
  split; [rewrite K2; exact Hem |].
  now rewrite K4.
Qed.

(** C9 at work: a token of 15 characters typed into a freshly mounted
    page. *)
Lemma joinSession_rejects_locally_witness :
  status (click_join (Some "0123456789abcde") initial) = Error
  /\ error (click_join (Some "0123456789abcde") initial) = "Invalid token."
  /\ all_connectCalls (click_join (Some "0123456789abcde") initial)
     = all_connectCalls initial
  /\ (socketRef initial = None ->
      socketRef (click_join (Some "0123456789abcde") initial) = None)
  /\ all_emitted (click_join (Some "0123456789abcde") initial)
     = all_emitted initial ++ cancel_if_socket initial
  /\ sessionTokenRef (click_join (Some "0123456789abcde") initial)
     = sessionTokenRef initial.
Proof.
  apply (joinSession_rejects_locally (Some "0123456789abcde") initial).
  reflexivity.
Defined.

(** C9, the statement of the specification fails: on a page that already
    holds a socket, joining with a 15-character token does emit a socket
    message, the [session-cancel] of [resetState]. *)
Lemma invalid_join_emits_session_cancel :
  all_emitted waiting_peer = [MsgRegister "1a2b3c4d5e6f7890"]
  /\ isValidToken (JSString (trim "0123456789abcde")) = false
  /\ all_emitted (click_join (Some "0123456789abcde") waiting_peer)
     = [MsgRegister "1a2b3c4d5e6f7890"; MsgSessionCancel "1a2b3c4d5e6f7890"]
  /\ status (click_join (Some "0123456789abcde") waiting_peer) = Error.
Proof.
  split; [vm_compute; reflexivity |]. split; [vm_compute; reflexivity |].
  split; vm_compute; reflexivity.
Qed.

(** White space around the token is removed before validation. *)
Lemma joinSession_trims_input :
  status (click_join (Some " 1a2b3c4d5e6f7890 ") initial) = Waiting
  /\ all_emitted (click_join (Some " 1a2b3c4d5e6f7890 ") initial)
     = [MsgRegister "1a2b3c4d5e6f7890"].
Proof. split; vm_compute; reflexivity. Qed.

(** ** The relay disconnects after completion *)

(** The [disconnect] listener compares the status of the render that
    attached it, not the current one. *)
Lemma on_disconnect_reads_render (r : Render) (reason : string) (c : Comp) :
  (reason =? "io client disconnect")%string = false ->
  status (on_disconnect r reason c)
  = if Status_eqb (r_status r) Completed then status c else Error.
Proof.
  intros H. unfold on_disconnect. rewrite H. cbn [negb].
  destruct (Status_eqb (r_status r) Completed); reflexivity.
Qed.

(** C7, the code at the failing input: the guest joined from a render whose
    status was idle; the transfer completes; the relay then closes the
    connection ("transport close") and the status becomes error. *)
Theorem disconnect_after_completed_sets_error :
  status completed_guest = Completed
  /\ option_map r_status
       (match socketRef completed_guest with
        | Some s => wired s
        | None => None
        end) = Some Idle
  /\ status (socket_disconnect "transport close" completed_guest) = Error
  /\ status (socket_disconnect "io server disconnect" completed_guest) = Error.
Proof.
  split; [vm_compute; reflexivity |]. split; [vm_compute; reflexivity |].
  split; vm_compute; reflexivity.
Qed.

(** ** The waiting watchdog *)

Lemma waitingTimeout_resets (c : Comp) :
  status c = Waiting ->
  status (timer_fires c) = Idle
  /\ error (timer_fires c) = ""
  /\ torn_down (timer_fires c)
  /\ all_emitted (timer_fires c) = all_emitted c ++ cancel_if_socket c.
Proof.
  intros Hw.
  assert (Heq : timer_fires c
                = resetState (render c)
                    (setStatus Error
                       (setError
                          "Connection timeout: peer did not connect in time." c))).
  { unfold timer_fires, waitingTimeout, watchdog_delay.
    cbn [render r_status]. rewrite Hw. reflexivity. }
  rewrite Heq.
  destruct (resetState_effects (render c)
              (setStatus Error
                 (setError
                    "Connection timeout: peer did not connect in time." c)))
    as [H1 [H2 [H3 [_ [H5 _]]]]].
  split; [exact H1 |]. split; [exact H2 |]. split; [exact H3 |]. exact H5.
Qed.

(** C8, the code at the failing input: a guest has been waiting for five
    minutes and the timer fires.  The session is torn down, but the status the
    callback leaves is idle with an empty message, because [resetState] runs
    after [setStatus("error")] and overwrites it. *)
Theorem waiting_timeout_ends_idle :
  status waiting_peer = Waiting
  /\ watchdog_delay (render waiting_peer) = Some WAITING_TIMEOUT_MS
  /\ status (timer_fires waiting_peer) = Idle
  /\ error (timer_fires waiting_peer) = ""
  /\ torn_down (timer_fires waiting_peer)
  /\ all_emitted (timer_fires waiting_peer)
     = [MsgRegister "1a2b3c4d5e6f7890"; MsgSessionCancel "1a2b3c4d5e6f7890"].
Proof.
  assert (Hw : status waiting_peer = Waiting) by (vm_compute; reflexivity).
  split; [exact Hw |].
  split; [unfold watchdog_delay; cbn [render r_status]; rewrite Hw; reflexivity |].
  destruct (waitingTimeout_resets waiting_peer Hw) as [H1 [H2 [H3 H4]]].
  split; [exact H1 |]. split; [exact H2 |]. split; [exact H3 |].
  rewrite H4. vm_compute. reflexivity.
Qed.
(** ** The sender: progress *)

Section SenderFacts.

Variable textBytes : JSONText -> nat.
Variable sendErrorMessage : string.

(** The progress reported after a chunk counts the files before the index
    held by the render of the click, whatever file is being sent. *)
Lemma sendChunk_progress
      (r : Render) (i offset : nat) (file : File) (c : Comp) (dc : DataChannel) :
  dcRef c = Some dc ->
  readyState dc = ChOpen ->
  sendProgress (snd (sendChunk textBytes sendErrorMessage r i offset file c))
  = mkProgress
      (Z.of_nat
         (bytes_before (r_selectedFiles r) (r_currentFileIndex r)
          + (offset
             + List.length (slice (f_content file) offset (offset + CHUNK_SIZE)))))
      (Z.of_nat (sum_sizes (r_selectedFiles r))).
Proof.
  intros Hdc Hopen. unfold sendChunk, dc_send. rewrite Hdc, Hopen. reflexivity.
Qed.

End SenderFacts.

(** C6, the code at the failing input: two files of 1 and 2 bytes.  After
    the only chunk of the second file all 3 bytes are sent, and the reported
    progress is 2 of 3: the sizes of earlier files are summed up to
    [currentFileIndex], a constant of the render of the click (0), not up to
    the index of the file being sent. *)
Theorem progress_omits_earlier_files :
  fst (click_send plainTextBytes "" (runs 5) (host_connected [file_a; file_b]))
  = InLoop 1 2
  /\ frames_sent
       (snd (click_send plainTextBytes "" (runs 5)
               (host_connected [file_a; file_b])))
     = [TextFrame (Obj (meta_of file_a)); BinaryFrame [Byte.x01];
        TextFrame (Obj (meta_of file_b)); BinaryFrame [Byte.x02; Byte.x03]]
  /\ sendProgress
       (snd (click_send plainTextBytes "" (runs 5)
               (host_connected [file_a; file_b])))
     = mkProgress 2 3
  /\ Z.of_nat (bytes_before [file_a; file_b] 1 + 2) = 3%Z.
Proof. repeat split; vm_compute; reflexivity. Qed.

(** ** The sender: flow control *)

Lemma CHUNK_SIZE_pos : 0 < CHUNK_SIZE.
Proof. unfold CHUNK_SIZE. lia. Qed.

Lemma slice_length (content : list Byte.byte) (a : nat) :
  List.length (slice content a (a + CHUNK_SIZE))
  = Nat.min CHUNK_SIZE (List.length content - a).
Proof.
  unfold slice. replace (a + CHUNK_SIZE - a) with CHUNK_SIZE by lia.
  now rewrite length_firstn, length_skipn.
Qed.

Lemma slice_length_le (content : list Byte.byte) (a : nat) :
  List.length (slice content a (a + CHUNK_SIZE)) <= CHUNK_SIZE.
Proof. rewrite slice_length. lia. Qed.

Lemma app_tail_eq {A : Type} (l : list A) (x y : A) :
  l ++ [x] = l ++ [y] -> x = y.
Proof. intros H. apply app_inj_tail in H. tauto. Qed.

Section FlowControl.

Variable textBytes : JSONText -> nat.
Variable sendErrorMessage : string.

(** What [sendChunk] does to an open channel. *)
Lemma sendChunk_open
      (r : Render) (i offset : nat) (file : File) (c : Comp) (dc : DataChannel) :
  dcRef c = Some dc ->
  readyState dc = ChOpen ->
  fst (sendChunk textBytes sendErrorMessage r i offset file c)
  = InLoop i (offset + List.length (slice (f_content file) offset (offset + CHUNK_SIZE)))
  /\ dcRef (snd (sendChunk textBytes sendErrorMessage r i offset file c))
     = Some (mkDC ChOpen
               (bufferedAmount dc
                + List.length (slice (f_content file) offset (offset + CHUNK_SIZE)))
               (bufferedAmountLowThreshold dc)
               (sentFrames dc
                ++ [BinaryFrame (slice (f_content file) offset (offset + CHUNK_SIZE))])).
Proof.
  intros Hdc Hopen. unfold sendChunk, dc_send. rewrite Hdc, Hopen. cbn.
  split; reflexivity.
Qed.

(** On a channel that is not open it fails and leaves the channel alone. *)
Lemma sendChunk_not_open
      (r : Render) (i offset : nat) (file : File) (c : Comp) (dc : DataChannel) :
  dcRef c = Some dc ->
  readyState dc <> ChOpen ->
  dcRef (snd (sendChunk textBytes sendErrorMessage r i offset file c)) = Some dc.
Proof.
  intros Hdc Hopen. unfold sendChunk, dc_send, sendFailed. rewrite Hdc.
  destruct (readyState dc); cbn; try assumption. contradiction.
Qed.

(** A chunk handed to [sendChunk] when the buffered amount is at most the
    threshold leaves it at most one chunk above. *)
Lemma sendChunk_bound
      (r : Render) (i offset : nat) (file : File) (c : Comp)
      (dc dc' : DataChannel) (bytes : list Byte.byte) :
  dcRef c = Some dc ->
  bufferedAmount dc <= bufferedAmountLowThreshold dc ->
  dcRef (snd (sendChunk textBytes sendErrorMessage r i offset file c)) = Some dc' ->
  sentFrames dc' = sentFrames dc ++ [BinaryFrame bytes] ->
  bufferedAmount dc' - List.length bytes <= bufferedAmountLowThreshold dc'
  /\ List.length bytes <= CHUNK_SIZE
  /\ bufferedAmount dc' <= bufferedAmountLowThreshold dc' + CHUNK_SIZE.
Proof.
  intros Hdc Hle Hdc' Hsent.
  destruct (readyState dc) eqn:Hst.
  1, 3, 4:
    rewrite (sendChunk_not_open r i offset file c dc Hdc) in Hdc';
    [ injection Hdc' as <-; symmetry in Hsent; now apply app_one_neq in Hsent
    | rewrite Hst; discriminate ].
  destruct (sendChunk_open r i offset file c dc Hdc Hst) as [_ H].
  rewrite H in Hdc'. injection Hdc' as <-. cbn in *.
  apply app_tail_eq in Hsent. injection Hsent as <-.
  pose proof (slice_length_le (f_content file) offset). lia.
Qed.

Lemma afterLoop_dcRef (r : Render) (i : nat) (c : Comp) :
  dcRef (snd (afterLoop r i c)) = dcRef c.
Proof.
  unfold afterLoop, emit_opt. destruct (_ =? _); cbn; [| reflexivity].
  destruct (socketRef c); reflexivity.
Qed.

Lemma step_binary_frame_bound
      (r : Render) (a : Act) (pc : SendPC) (c : Comp)
      (dc dc' : DataChannel) (bytes : list Byte.byte) :
  dcRef c = Some dc ->
  dcRef (snd (step textBytes sendErrorMessage r a (pc, c))) = Some dc' ->
  sentFrames dc' = sentFrames dc ++ [BinaryFrame bytes] ->
  bufferedAmount dc' - List.length bytes <= bufferedAmountLowThreshold dc'
  /\ List.length bytes <= CHUNK_SIZE
  /\ bufferedAmount dc' <= bufferedAmountLowThreshold dc' + CHUNK_SIZE.
Proof.
  intros Hdc Hdc' Hsent.
  assert (Hsame : dcRef c = Some dc' -> False).
  { intros H. rewrite Hdc in H. injection H as <-.
    symmetry in Hsent; now apply app_one_neq in Hsent. }
  destruct a as [| d]; cbn [step fst snd] in Hdc'.
  - (* the sender runs *)
    destruct pc as [i | i offset | i offset |]; cbn [sender_run] in Hdc';
      try (exfalso; now apply Hsame).
    + destruct (nth_error (r_selectedFiles r) i) as [file |];
        [| exfalso; now apply Hsame].
      rewrite Hdc in Hdc'. unfold dc_send in Hdc'.
      destruct (ChannelState_is_open (readyState dc));
        cbn in Hdc'; [| exfalso; apply Hsame; congruence].
      injection Hdc' as <-. cbn in Hsent.
      apply app_tail_eq in Hsent. discriminate Hsent.
    + destruct (nth_error (r_selectedFiles r) i) as [file |];
        [| exfalso; now apply Hsame].
      destruct (offset <? f_size file).
      * rewrite Hdc in Hdc'.
        destruct (bufferedAmountLowThreshold dc <? bufferedAmount dc) eqn:Hcmp;
          [exfalso; now apply Hsame |].
        apply Nat.ltb_ge in Hcmp.
        now apply (sendChunk_bound r i offset file c dc dc' bytes).
      * rewrite afterLoop_dcRef in Hdc'. exfalso. now apply Hsame.
  - (* the transport drains *)
    unfold on_drain in Hdc'. rewrite Hdc in Hdc'.
    set (c1 := set_dcRef (Some (fst (drain d dc))) c) in *.
    assert (Hdc1 : dcRef c1 = Some (fst (drain d dc))) by reflexivity.
    assert (Hsame1 : dcRef c1 = Some dc' -> False).
    { intros H. rewrite Hdc1 in H. injection H as <-.
      cbn in Hsent. symmetry in Hsent; now apply app_one_neq in Hsent. }
    destruct (snd (drain d dc)) eqn:Hfired; [| exfalso; now apply Hsame1].
    destruct pc as [i | i offset | i offset |]; try (exfalso; now apply Hsame1).
    destruct (nth_error (r_selectedFiles r) i) as [file |];
      [| exfalso; now apply Hsame1].
    cbn in Hfired. apply andb_true_iff in Hfired. destruct Hfired as [_ Hlow].
    apply Nat.leb_le in Hlow.
    apply (sendChunk_bound r i offset file c1 (fst (drain d dc)) dc' bytes);
      try assumption.
Qed.

(** C4, as the code has it.  The channel's threshold is four chunk sizes
    from the binding on.  At the head of the loop, a buffered amount above
    the threshold suspends the sender with nothing sent; a suspended sender
    does not move by itself and stays suspended through every drain that
    leaves the amount above the threshold.  Whenever a step of the sender
    puts a binary frame on the channel, the amount buffered just before was
    at most the threshold, so the amount just after is at most the
    threshold plus one chunk.  (Meta frames are sent without this check.) *)
Theorem backpressure_before_each_chunk :
  (forall (dc : DataChannel) (c : Comp),
      option_map bufferedAmountLowThreshold (dcRef (bindDataChannel dc c))
      = Some (CHUNK_SIZE * 4))
  /\ (forall (r : Render) (i offset : nat) (file : File) (c : Comp)
             (dc : DataChannel),
         nth_error (r_selectedFiles r) i = Some file ->
         offset < f_size file ->
         dcRef c = Some dc ->
         bufferedAmountLowThreshold dc < bufferedAmount dc ->
         sender_run textBytes sendErrorMessage r (InLoop i offset) c
         = (AwaitLow i offset, c))
  /\ (forall (r : Render) (i offset : nat) (c : Comp),
         sender_run textBytes sendErrorMessage r (AwaitLow i offset) c
         = (AwaitLow i offset, c))
  /\ (forall (r : Render) (d i offset : nat) (c : Comp) (dc : DataChannel),
         dcRef c = Some dc ->
         bufferedAmountLowThreshold dc < bufferedAmount dc - d ->
         fst (on_drain textBytes sendErrorMessage r d (AwaitLow i offset) c)
         = AwaitLow i offset
         /\ frames_sent
              (snd (on_drain textBytes sendErrorMessage r d (AwaitLow i offset) c))
            = frames_sent c)
  /\ (forall (r : Render) (a : Act) (pc : SendPC) (c : Comp)
             (dc dc' : DataChannel) (bytes : list Byte.byte),
         dcRef c = Some dc ->
         dcRef (snd (step textBytes sendErrorMessage r a (pc, c))) = Some dc' ->
         sentFrames dc' = sentFrames dc ++ [BinaryFrame bytes] ->
         bufferedAmount dc' - List.length bytes <= bufferedAmountLowThreshold dc'
         /\ List.length bytes <= CHUNK_SIZE
         /\ bufferedAmount dc'
            <= bufferedAmountLowThreshold dc' + CHUNK_SIZE).
Proof.
  split; [reflexivity |]. split.
  { intros r i offset file c dc Hnth Hlt Hdc Habove.
    unfold sender_run. rewrite Hnth, Hdc.
    apply Nat.ltb_lt in Hlt. rewrite Hlt.
    apply Nat.ltb_lt in Habove. now rewrite Habove. }
  split; [reflexivity |]. split.
  { intros r d i offset c dc Hdc Habove.
    unfold on_drain, frames_sent. rewrite Hdc. cbn [drain fst snd].
    replace (bufferedAmount dc - d <=? bufferedAmountLowThreshold dc)
      with false by (symmetry; apply Nat.leb_gt; exact Habove).
    rewrite andb_false_r. cbn. split; reflexivity. }
  exact step_binary_frame_bound.
Qed.

End FlowControl.

(** C4, the statement of the specification fails: the fifth chunk of the
    first file is sent with the buffer exactly at the threshold, which
    leaves it one chunk above; the meta frame of the second file is then sent
    without any check, and the buffered amount exceeds the threshold by more
    than one chunk. *)
Lemma meta_frame_exceeds_one_chunk :
  (threshold (snd congested_send) =? CHUNK_SIZE * 4) = true
  /\ (buffered (snd congested_send) =? CHUNK_SIZE * 4 + CHUNK_SIZE + 77) = true
  /\ (threshold (snd congested_send) + CHUNK_SIZE
      <? buffered (snd congested_send)) = true.
Proof.
  split; [vm_compute; reflexivity |]. split; vm_compute; reflexivity.
Qed.

(** ** The sender and the receiver together *)

(** C2, the code at the failing input: one empty file.  The sender emits
    the meta frame and no binary frame (ceil(0/c) = 0), reports completed and
    emits [session-complete]; the receiver, which finalizes only inside
    [storeChunk], hands over no file and stays in status transferring. *)
Theorem empty_file_is_never_finalized :
  fst empty_send = Finished
  /\ status (snd empty_send) = Completed
  /\ frames_sent (snd empty_send) = file_frames empty_file
  /\ file_frames empty_file = [TextFrame (Obj (meta_of empty_file))]
  /\ all_emitted (snd empty_send)
     = [MsgRegister "1a2b3c4d5e6f7890";
        MsgSignal (Some "1a2b3c4d5e6f7890") Offer "offer-sdp";
        MsgSessionComplete (Some "1a2b3c4d5e6f7890")]
  /\ downloads (receive (frames_sent (snd empty_send)) guest_open) = []
  /\ status (receive (frames_sent (snd empty_send)) guest_open) = Transferring.
Proof.
  split; [vm_compute; reflexivity |]. split; [vm_compute; reflexivity |].
  split; [vm_compute; reflexivity |]. split; [vm_compute; reflexivity |].
  split; [vm_compute; reflexivity |]. split; vm_compute; reflexivity.
Qed.

(** ** Chunking *)

Lemma ceil_div_unique (n k : nat) :
  n <= k * CHUNK_SIZE ->
  k = 0 \/ (k - 1) * CHUNK_SIZE < n ->
  k = ceil_div n CHUNK_SIZE.
Proof.
  intros Hle Hk. pose proof CHUNK_SIZE_pos as Hc. unfold ceil_div.
  destruct k as [| k'].
  - assert (n = 0) by lia. subst n.
    symmetry. apply Nat.div_small. lia.
  - destruct Hk as [Hk | Hk]; [discriminate Hk |].
    replace (S k' - 1) with k' in Hk by lia.
    apply (Nat.div_unique (n + CHUNK_SIZE - 1) CHUNK_SIZE (S k')
             (n + CHUNK_SIZE - 1 - CHUNK_SIZE * S k')).
    + nia.
    + nia.
Qed.

Lemma chunk_at_length (file : File) (k : nat) :
  List.length (chunk_at file k)
  = Nat.min CHUNK_SIZE (f_size file - k * CHUNK_SIZE).
Proof. unfold chunk_at, f_size. apply slice_length. Qed.

Lemma chunk_frames_S (file : File) (k : nat) :
  chunk_frames file (S k)
  = chunk_frames file k ++ [BinaryFrame (chunk_at file k)].
Proof.
  unfold chunk_frames. rewrite seq_S, map_app. reflexivity.
Qed.

Lemma file_frames_chunks (file : File) :
  file_frames file
  = TextFrame (Obj (meta_of file))
    :: chunk_frames file (ceil_div (f_size file) CHUNK_SIZE).
Proof. reflexivity. Qed.

(** ** The frames of a whole send *)

Lemma firstn_S_nth_error {A : Type} (l : list A) :
  forall (i : nat) (x : A),
    nth_error l i = Some x -> firstn (S i) l = firstn i l ++ [x].
Proof.
  induction l as [| y l IH]; intros [| i] x H; simpl in H; try discriminate H.
  - injection H as ->. reflexivity.
  - rewrite !firstn_cons, (IH i x H). reflexivity.
Qed.

Lemma sent_before_S (files : list File) (i : nat) (file : File) :
  nth_error files i = Some file ->
  sent_before files (S i) = sent_before files i ++ file_frames file.
Proof.
  intros H. unfold sent_before.
  rewrite (firstn_S_nth_error files i file H), flat_map_app.
  cbn [flat_map]. now rewrite app_nil_r.
Qed.

Lemma afterLoop_pc (r : Render) (i : nat) (c : Comp) :
  fst (afterLoop r i c) = AtFile (S i).
Proof. unfold afterLoop. destruct (_ =? _); reflexivity. Qed.

Section SenderRuns.

Variable textBytes : JSONText -> nat.
Variable sendErrorMessage : string.

Lemma sendChunk_keeps_inv
      (r : Render) (i offset : nat) (file : File) (c : Comp) (dc : DataChannel)
      (files : list File) (base : list Frame) :
  dcRef c = Some dc ->
  readyState dc = ChOpen ->
  nth_error files i = Some file ->
  offset < f_size file ->
  in_file files base i offset dc ->
  sender_inv files base (sendChunk textBytes sendErrorMessage r i offset file c).
Proof.
  intros Hdc Hopen Hnth Hlt [file' [k [Hnth' [Hoff [Hk Hsent]]]]].
  rewrite Hnth in Hnth'. injection Hnth' as <-.
  assert (Hoffk : offset = k * CHUNK_SIZE) by lia.
  clear Hoff. subst offset.
  destruct (sendChunk_open textBytes sendErrorMessage r i (k * CHUNK_SIZE)
              file c dc Hdc Hopen) as [Hpc Hdc'].
  unfold sender_inv. eexists. split; [exact Hdc' |]. split; [reflexivity |].
  rewrite Hpc. exists file, (S k). split; [assumption |]. split.
  - rewrite slice_length. fold (f_size file). lia.
  - split.
    + right. replace (S k - 1) with k by lia. lia.
    + cbn [sentFrames]. rewrite Hsent, chunk_frames_S.
      unfold chunk_at. rewrite <- !app_assoc. reflexivity.
Qed.

Lemma step_keeps_inv (r : Render) (base : list Frame) (a : Act)
      (s : SendPC * Comp) :
  sender_inv (r_selectedFiles r) base s ->
  sender_inv (r_selectedFiles r) base (step textBytes sendErrorMessage r a s).
Proof.
  destruct s as [pc c]. intros [dc [Hdc [Hopen Hpc]]]. cbn [fst snd] in *.
  destruct a as [| d]; cbn [step fst snd].
  - (* the sender runs *)
    destruct pc as [i | i offset | i offset |]; cbn [sender_run].
    + destruct Hpc as [Hi Hsent].
      destruct (nth_error (r_selectedFiles r) i) as [file |] eqn:Hnth.
      * rewrite Hdc. unfold dc_send. rewrite Hopen. cbn [ChannelState_is_open].
        eexists. split; [reflexivity |]. split; [reflexivity |].
        cbn [fst]. exists file, 0. split; [assumption |].
        split; [cbn; lia |]. split; [now left |].
        cbn [sentFrames]. rewrite Hsent, <- app_assoc. reflexivity.
      * apply nth_error_None in Hnth.
        exists dc. split; [assumption |]. split; [assumption |].
        cbn [fst]. rewrite Hsent. unfold sent_before.
        rewrite firstn_all2 by lia. reflexivity.
    + destruct Hpc as [file [k [Hnth [Hoff [Hk Hsent]]]]].
      rewrite Hnth.
      destruct (offset <? f_size file) eqn:Hlt.
      * apply Nat.ltb_lt in Hlt. rewrite Hdc.
        destruct (bufferedAmountLowThreshold dc <? bufferedAmount dc).
        -- exists dc. split; [assumption |]. split; [assumption |].
           cbn [fst]. split.
           ++ exists file, k. now repeat split.
           ++ exists file. now split.
        -- apply (sendChunk_keeps_inv r i offset file c dc); try assumption.
           exists file, k. now repeat split.
      * apply Nat.ltb_ge in Hlt.
        exists dc. rewrite afterLoop_dcRef, afterLoop_pc.
        split; [assumption |]. split; [assumption |]. split.
        -- change (i < List.length (r_selectedFiles r)).
           apply nth_error_Some. congruence.
        -- rewrite (sent_before_S _ i file Hnth), file_frames_chunks.
           rewrite <- (ceil_div_unique (f_size file) k); [exact Hsent | lia | exact Hk].
    + exists dc. split; [assumption |]. split; assumption.
    + exists dc. split; [assumption |]. split; assumption.
  - (* the transport drains *)
    unfold on_drain. rewrite Hdc.
    set (c1 := set_dcRef (Some (fst (drain d dc))) c).
    assert (Hdc1 : dcRef c1 = Some (fst (drain d dc))) by reflexivity.
    assert (Hkeep : sender_inv (r_selectedFiles r) base (pc, c1)).
    { exists (fst (drain d dc)). split; [exact Hdc1 |].
      split; [exact Hopen |]. exact Hpc. }
    destruct (snd (drain d dc)); [| exact Hkeep].
    destruct pc as [i | i offset | i offset |]; try exact Hkeep.
    cbn [fst] in Hpc. destruct Hpc as [Hin [file [Hnth Hlt]]].
    rewrite Hnth.
    apply (sendChunk_keeps_inv r i offset file c1 (fst (drain d dc)));
      try assumption.
Qed.

Lemma exec_keeps_inv (r : Render) (base : list Frame) (acts : list Act) :
  forall s : SendPC * Comp,
    sender_inv (r_selectedFiles r) base s ->
    sender_inv (r_selectedFiles r) base
      (exec textBytes sendErrorMessage r acts s).
Proof.
  unfold exec. induction acts as [| a acts IH]; intros s Hs; simpl.
  - exact Hs.
  - apply IH. now apply step_keeps_inv.
Qed.

Lemma sendFiles_starts (r : Render) (c : Comp) (dc : DataChannel) :
  dcRef c = Some dc ->
  readyState dc = ChOpen ->
  r_selectedFiles r <> [] ->
  fst (sendFiles r c) = AtFile 0
  /\ dcRef (snd (sendFiles r c)) = Some dc
  /\ status (snd (sendFiles r c)) = Transferring.
Proof.
  intros Hdc Hopen Hne. unfold sendFiles. rewrite Hdc, Hopen.
  destruct (r_selectedFiles r) as [| f fs]; [contradiction |].
  cbn. rewrite Hdc. repeat split; reflexivity.
Qed.

End SenderRuns.

Section SenderCompletion.

Variable textBytes : JSONText -> nat.
Variable sendErrorMessage : string.

Lemma send_running_set_dcRef (c0 c : Comp) (dc : option DataChannel) :
  send_running c0 c -> send_running c0 (set_dcRef dc c).
Proof. intros H. exact H. Qed.

Lemma send_over_set_dcRef (c0 c : Comp) (dc : option DataChannel) :
  send_over c0 c -> send_over c0 (set_dcRef dc c).
Proof. intros H. exact H. Qed.

Lemma sendChunk_running
      (r : Render) (i offset : nat) (file : File) (c0 c : Comp)
      (dc : DataChannel) :
  dcRef c = Some dc ->
  readyState dc = ChOpen ->
  send_running c0 c ->
  send_running c0 (snd (sendChunk textBytes sendErrorMessage r i offset file c)).
Proof.
  intros Hdc Hopen H. unfold sendChunk, dc_send. rewrite Hdc, Hopen. exact H.
Qed.

Lemma emit_opt_effects (m : SocketMsg) (c : Comp) :
  all_emitted (emit_opt m c)
  = all_emitted c ++ match socketRef c with Some _ => [m] | None => [] end
  /\ status (emit_opt m c) = status c
  /\ selectedFiles (emit_opt m c) = selectedFiles c
  /\ currentFileIndex (emit_opt m c) = currentFileIndex c
  /\ dcRef (emit_opt m c) = dcRef c.
Proof.
  unfold emit_opt, all_emitted.
  destruct (socketRef c) as [s |] eqn:Hs; cbn.
  - repeat split; reflexivity.
  - rewrite ?Hs, ?app_nil_r. repeat split; reflexivity.
Qed.

Lemma afterLoop_status (r : Render) (i : nat) (c0 c : Comp) :
  send_running c0 c ->
  if S i =? List.length (r_selectedFiles r)
  then send_over c0 (snd (afterLoop r i c))
  else i < List.length (r_selectedFiles r) ->
       send_running c0 (snd (afterLoop r i c)).
Proof.
  intros [H1 [H2 [H3 H4]]]. unfold afterLoop.
  destruct (S i =? List.length (r_selectedFiles r)) eqn:Hn.
  - apply Nat.eqb_eq in Hn.
    replace (i =? List.length (r_selectedFiles r) - 1) with true
      by (symmetry; apply Nat.eqb_eq; lia).
    cbn [snd].
    set (c' := setCurrentFileIndex 0 (setSelectedFiles [] (setStatus Completed c))).
    destruct (emit_opt_effects (MsgSessionComplete (sessionTokenRef c')) c')
      as [E1 [E2 [E3 [E4 _]]]].
    unfold send_over. rewrite E1, E2, E3, E4.
    split; [reflexivity |]. split; [reflexivity |]. split; [reflexivity |].
    unfold complete_if_socket. rewrite <- H3, <- H4.
    change (all_emitted c') with (all_emitted c). rewrite H2. reflexivity.
  - apply Nat.eqb_neq in Hn. intros Hi.
    replace (i =? List.length (r_selectedFiles r) - 1) with false
      by (symmetry; apply Nat.eqb_neq; lia).
    cbn [snd]. unfold send_running.
    split; [exact H1 |]. split; [exact H2 |]. split; [exact H3 | exact H4].
Qed.

Lemma step_keeps_status (r : Render) (base : list Frame) (c0 : Comp) (a : Act)
      (s : SendPC * Comp) :
  sender_inv (r_selectedFiles r) base s ->
  sender_status_inv (List.length (r_selectedFiles r)) c0 s ->
  sender_status_inv (List.length (r_selectedFiles r)) c0
    (step textBytes sendErrorMessage r a s).
Proof.
  destruct s as [pc c]. intros [dc [Hdc [Hopen Hpc]]] Hst.
  unfold sender_status_inv in *. cbn [fst snd] in *.
  destruct a as [| d]; cbn [step fst snd].
  - destruct pc as [i | i offset | i offset |]; cbn [sender_run].
    + destruct Hpc as [Hi Hsent].
      destruct (nth_error (r_selectedFiles r) i) as [file |] eqn:Hnth.
      * assert (Hlt : i < List.length (r_selectedFiles r))
          by (apply nth_error_Some; congruence).
        replace (i =? List.length (r_selectedFiles r)) with false in Hst
          by (symmetry; apply Nat.eqb_neq; lia).
        rewrite Hdc. unfold dc_send. rewrite Hopen. exact Hst.
      * apply nth_error_None in Hnth.
        replace (i =? List.length (r_selectedFiles r)) with true in Hst
          by (symmetry; apply Nat.eqb_eq; lia).
        exact Hst.
    + destruct Hpc as [file [k [Hnth _]]]. rewrite Hnth.
      assert (Hlt : i < List.length (r_selectedFiles r))
        by (apply nth_error_Some; congruence).
      destruct (offset <? f_size file).
      * rewrite Hdc.
        destruct (bufferedAmountLowThreshold dc <? bufferedAmount dc);
          [exact Hst |].
        destruct (sendChunk_open textBytes sendErrorMessage r i offset file c
                    dc Hdc Hopen) as [Hpc' _].
        rewrite Hpc'. now apply (sendChunk_running r i offset file c0 c dc).
      * rewrite afterLoop_pc.
        pose proof (afterLoop_status r i c0 c Hst) as H.
        destruct (S i =? List.length (r_selectedFiles r)); [exact H |].
        now apply H.
    + exact Hst.
    + exact Hst.
  - unfold on_drain. rewrite Hdc.
    set (c1 := set_dcRef (Some (fst (drain d dc))) c).
    assert (Hdc1 : dcRef c1 = Some (fst (drain d dc))) by reflexivity.
    destruct (snd (drain d dc)); [| exact Hst].
    destruct pc as [i | i offset | i offset |]; try exact Hst.
    destruct Hpc as [_ [file [Hnth _]]]. rewrite Hnth.
    destruct (sendChunk_open textBytes sendErrorMessage r i offset file c1
                (fst (drain d dc)) Hdc1 Hopen) as [Hpc' _].
    rewrite Hpc'.
    now apply (sendChunk_running r i offset file c0 c1 (fst (drain d dc))).
Qed.

Lemma exec_keeps_status (r : Render) (base : list Frame) (c0 : Comp)
      (acts : list Act) :
  forall s : SendPC * Comp,
    sender_inv (r_selectedFiles r) base s ->
    sender_status_inv (List.length (r_selectedFiles r)) c0 s ->
    sender_status_inv (List.length (r_selectedFiles r)) c0
      (exec textBytes sendErrorMessage r acts s).
Proof.
  unfold exec. induction acts as [| a acts IH]; intros s Hs Hst; simpl.
  - exact Hst.
  - apply IH.
    + now apply step_keeps_inv.
    + now apply (step_keeps_status r base).
Qed.

End SenderCompletion.

(** The outcome of a send that reaches its end (used below). *)
Lemma complete_send :
  forall (textBytes : JSONText -> nat) (sendErrorMessage : string)
         (acts : list Act) (c : Comp) (dc : DataChannel),
    dcRef c = Some dc ->
    readyState dc = ChOpen ->
    selectedFiles c <> [] ->
    fst (click_send textBytes sendErrorMessage acts c) = Finished ->
    frames_sent (snd (click_send textBytes sendErrorMessage acts c))
    = sentFrames dc ++ flat_map file_frames (selectedFiles c)
    /\ status (snd (click_send textBytes sendErrorMessage acts c)) = Completed
    /\ selectedFiles (snd (click_send textBytes sendErrorMessage acts c)) = []
    /\ all_emitted (snd (click_send textBytes sendErrorMessage acts c))
       = all_emitted c ++ complete_if_socket c.
Proof.
  intros textBytes msg acts c dc Hdc Hopen Hne Hfin.
  unfold click_send in *.
  destruct (sendFiles_starts (render c) c dc Hdc Hopen Hne) as [S1 [S2 S3]].
  set (s0 := sendFiles (render c) c) in *.
  assert (Hinv0 : sender_inv (r_selectedFiles (render c)) (sentFrames dc) s0).
  { exists dc. split; [exact S2 |]. split; [exact Hopen |]. rewrite S1.
    split; [lia |]. unfold sent_before. cbn [firstn flat_map].
    now rewrite app_nil_r. }
  assert (Hst0 : sender_status_inv
                   (List.length (r_selectedFiles (render c))) c s0).
  { unfold sender_status_inv. rewrite S1.
    replace (0 =? List.length (r_selectedFiles (render c))) with false.
    - unfold send_running. split; [exact S3 |].
      unfold s0, sendFiles.
      destruct (_ || _); cbn; repeat split; reflexivity.
    - symmetry. apply Nat.eqb_neq. cbn [render r_selectedFiles].
      destruct (selectedFiles c); [contradiction | discriminate]. }
  pose proof (exec_keeps_inv textBytes msg (render c) (sentFrames dc) acts s0
                Hinv0) as [dc' [D1 [_ D3]]].
  pose proof (exec_keeps_status textBytes msg (render c) (sentFrames dc) c acts
                s0 Hinv0 Hst0) as Hst.
  unfold sender_status_inv in Hst. rewrite Hfin in D3, Hst.
  destruct Hst as [T1 [T2 [_ T4]]].
  unfold frames_sent. rewrite D1.
  split; [exact D3 |]. split; [exact T1 |]. split; [exact T2 | exact T4].
Qed.

(** Every send that runs to its end, whatever the pace of the link, has
    put on the channel, after what was there, the frames of the selected
    files in order (for each file its meta frame, then its ceil(size/c)
    chunks); it leaves the status completed, the selection empty, and has
    emitted [session-complete] once, at the end. *)
Theorem complete_send_frames :
  forall (textBytes : JSONText -> nat) (sendErrorMessage : string)
         (acts : list Act) (c : Comp) (dc : DataChannel),
    dcRef c = Some dc ->
    readyState dc = ChOpen ->
    selectedFiles c <> [] ->
    fst (click_send textBytes sendErrorMessage acts c) = Finished ->
    frames_sent (snd (click_send textBytes sendErrorMessage acts c))
    = sentFrames dc ++ flat_map file_frames (selectedFiles c)
    /\ status (snd (click_send textBytes sendErrorMessage acts c)) = Completed
    /\ selectedFiles (snd (click_send textBytes sendErrorMessage acts c)) = []
    /\ all_emitted (snd (click_send textBytes sendErrorMessage acts c))
       = all_emitted c ++ complete_if_socket c.
Proof. exact complete_send. Qed.

(** A send of two small files that runs without suspension. *)
Lemma complete_send_frames_witness :
  frames_sent
    (snd (click_send plainTextBytes "" (runs 7) (host_connected [file_a; file_b])))
  = sentFrames host_channel
    ++ flat_map file_frames (selectedFiles (host_connected [file_a; file_b]))
  /\ status
       (snd (click_send plainTextBytes "" (runs 7)
               (host_connected [file_a; file_b]))) = Completed
  /\ selectedFiles
       (snd (click_send plainTextBytes "" (runs 7)
               (host_connected [file_a; file_b]))) = []
  /\ all_emitted
       (snd (click_send plainTextBytes "" (runs 7)
               (host_connected [file_a; file_b])))
     = all_emitted (host_connected [file_a; file_b])
       ++ complete_if_socket (host_connected [file_a; file_b]).
Proof.
  apply (complete_send_frames plainTextBytes "" (runs 7)
           (host_connected [file_a; file_b]) host_channel).
  - reflexivity.
  - reflexivity.
  - discriminate.
  - vm_compute. reflexivity.
Defined.

(** ** The chunks of a file *)

Lemma ceil_div_bounds (n : nat) :
  n <= ceil_div n CHUNK_SIZE * CHUNK_SIZE
  /\ (ceil_div n CHUNK_SIZE = 0
      \/ (ceil_div n CHUNK_SIZE - 1) * CHUNK_SIZE < n).
Proof.
  pose proof CHUNK_SIZE_pos as Hc. unfold ceil_div.
  pose proof (Nat.div_mod_eq (n + CHUNK_SIZE - 1) CHUNK_SIZE) as Hdm.
  pose proof (Nat.mod_upper_bound (n + CHUNK_SIZE - 1) CHUNK_SIZE) as Hr.
  assert (Hr' : (n + CHUNK_SIZE - 1) mod CHUNK_SIZE < CHUNK_SIZE)
    by (apply Hr; lia).
  clear Hr.
  set (q := (n + CHUNK_SIZE - 1) / CHUNK_SIZE) in *.
  set (m := (n + CHUNK_SIZE - 1) mod CHUNK_SIZE) in *.
  split.
  - nia.
  - destruct q as [| q']; [now left | right].
    replace (S q' - 1) with q' by lia. nia.
Qed.

Lemma firstn_add_skipn {A : Type} (a b : nat) :
  forall l : list A, firstn (a + b) l = firstn a l ++ firstn b (skipn a l).
Proof.
  induction a as [| a IH]; intros l.
  - reflexivity.
  - destruct l as [| x l].
    + rewrite !firstn_nil. reflexivity.
    + change (S a + b) with (S (a + b)).
      rewrite !firstn_cons, IH. reflexivity.
Qed.

Lemma concat_chunks (file : File) (k : nat) :
  List.concat (map (chunk_at file) (seq 0 k))
  = firstn (k * CHUNK_SIZE) (f_content file).
Proof.
  induction k as [| k IH].
  - reflexivity.
  - rewrite seq_S, map_app, concat_app, IH. cbn [map List.concat Nat.add].
    rewrite app_nil_r. unfold chunk_at, slice.
    replace (k * CHUNK_SIZE + CHUNK_SIZE - k * CHUNK_SIZE) with CHUNK_SIZE
      by lia.
    rewrite <- firstn_add_skipn. f_equal. lia.
Qed.


(** ** The receiver on the frames of whole files *)

Lemma receive_app (l1 l2 : list Frame) (c : Comp) :
  receive (l1 ++ l2) c = receive l2 (receive l1 c).
Proof. unfold receive. apply fold_left_app. Qed.

Lemma storeChunk_keeps_socket (chunk : list Byte.byte) (c : Comp) :
  complete_if_socket (storeChunk chunk c) = complete_if_socket c.
Proof.
  unfold storeChunk, complete_if_socket; cbn.
  destruct (recvMetaRef c) as [meta |]; cbn; [| reflexivity].
  destruct (size_reached _ _); cbn; [| reflexivity].
  unfold emit_opt; cbn.
  destruct (socketRef c) eqn:Hs; cbn; rewrite ?Hs; reflexivity.
Qed.

Lemma dc_onmessage_keeps_socket (data : Frame) (c : Comp) :
  complete_if_socket (dc_onmessage data c) = complete_if_socket c.
Proof.
  destruct data as [[| | meta] | bytes]; cbn [dc_onmessage].
  - reflexivity.
  - reflexivity.
  - destruct (meta_ok meta); reflexivity.
  - apply storeChunk_keeps_socket.
Qed.

Lemma receive_keeps_socket (frames : list Frame) :
  forall c : Comp,
    complete_if_socket (receive frames c) = complete_if_socket c.
Proof.
  unfold receive. induction frames as [| data frames IH]; intros c; simpl.
  - reflexivity.
  - rewrite IH. apply dc_onmessage_keeps_socket.
Qed.

(** The blob [storeChunk] hands over when the declared size is reached. *)
Lemma storeChunk_final_blob
      (chunk : list Byte.byte) (c : Comp) (meta : FileMeta) (size : Z) :
  recvMetaRef c = Some meta ->
  m_size meta = Some size ->
  (size <= recvBytesRef c + Z.of_nat (List.length chunk))%Z ->
  downloads (storeChunk chunk c)
  = downloads c
    ++ [mkDownload (or_default (m_name meta) "download")
          (or_default (m_mime meta) "application/octet-stream")
          (List.concat (recvChunksRef c ++ [chunk]))]
  /\ status (storeChunk chunk c) = Completed
  /\ all_emitted (storeChunk chunk c) = all_emitted c ++ complete_if_socket c.
Proof.
  intros Hm Hs Hle. apply Z.leb_le in Hle.
  unfold storeChunk; cbn. rewrite Hm; cbn. rewrite Hs; cbn. rewrite Hle.
  unfold emit_opt, all_emitted, complete_if_socket; cbn.
  destruct (socketRef c) eqn:Hsock; cbn; rewrite ?Hsock, ?app_nil_r;
    repeat split; reflexivity.
Qed.

Lemma meta_of_ok (file : File) :
  f_name file <> "" -> meta_ok (meta_of file) = true.
Proof.
  intros Hn. unfold meta_ok, meta_of; cbn [m_type m_name m_size].
  destruct (f_name file =? "")%string eqn:He.
  - apply String.eqb_eq in He. contradiction.
  - reflexivity.
Qed.

(** The first [j] chunks of a file, while they do not complete it. *)
Lemma receive_chunks_before_last (file : File) (c : Comp) (j : nat) :
  recvMetaRef c = Some (meta_of file) ->
  recvChunksRef c = [] ->
  recvBytesRef c = 0%Z ->
  j * CHUNK_SIZE < f_size file ->
  recvChunksRef (receive (chunk_frames file j) c)
  = map (chunk_at file) (seq 0 j)
  /\ recvBytesRef (receive (chunk_frames file j) c) = Z.of_nat (j * CHUNK_SIZE)
  /\ recvMetaRef (receive (chunk_frames file j) c) = Some (meta_of file)
  /\ not_finalized c (receive (chunk_frames file j) c).
Proof.
  intros Hm Hc Hb. induction j as [| j IH]; intros Hlt.
  - cbn [chunk_frames seq map receive fold_left Nat.mul].
    unfold chunk_frames, receive. cbn [seq map fold_left].
    split; [exact Hc |]. split; [exact Hb |]. split; [exact Hm |].
    apply not_finalized_refl.
  - assert (Hlt' : j * CHUNK_SIZE < f_size file) by lia.
    destruct (IH Hlt') as [I1 [I2 [I3 I4]]].
    rewrite chunk_frames_S, receive_app.
    set (cj := receive (chunk_frames file j) c) in *.
    change (receive [BinaryFrame (chunk_at file j)] cj)
      with (storeChunk (chunk_at file j) cj).
    destruct (storeChunk_buffers (chunk_at file j) cj) as [B1 [B2 B3]].
    assert (Hlen : List.length (chunk_at file j) = CHUNK_SIZE)
      by (rewrite chunk_at_length; lia).
    split; [rewrite B1, I1, seq_S, map_app; reflexivity |].
    split; [rewrite B2, I2, Hlen; lia |].
    split; [rewrite B3; exact I3 |].
    apply not_finalized_trans with (c2 := cj); [exact I4 |].
    apply storeChunk_not_reached.
    intros [meta [size [Hm' [Hs' Hle]]]].
    rewrite I3 in Hm'. injection Hm' as <-.
    cbn [meta_of m_size] in Hs'. injection Hs' as <-.
    rewrite I2, Hlen in Hle. lia.
Qed.

Lemma receive_file (file : File) (c : Comp) :
  receivable file ->
  downloads (receive (file_frames file) c) = downloads c ++ [blob_of file]
  /\ status (receive (file_frames file) c) = Completed
  /\ all_emitted (receive (file_frames file) c)
     = all_emitted c ++ complete_if_socket c.
Proof.
  intros [Hname Hsize]. pose proof CHUNK_SIZE_pos as Hpos.
  destruct (ceil_div_bounds (f_size file)) as [Hup Hlow].
  rewrite file_frames_chunks.
  destruct (ceil_div (f_size file) CHUNK_SIZE) as [| j] eqn:HK; [lia |].
  destruct Hlow as [H0 | Hlow]; [discriminate H0 |].
  replace (S j - 1) with j in Hlow by lia.
  change (TextFrame (Obj (meta_of file)) :: chunk_frames file (S j))
    with ([TextFrame (Obj (meta_of file))] ++ chunk_frames file (S j)).
  rewrite receive_app.
  change (receive [TextFrame (Obj (meta_of file))] c)
    with (dc_onmessage (TextFrame (Obj (meta_of file))) c).
  destruct (meta_frame_resets (meta_of file) c (meta_of_ok file Hname))
    as [R1 [R2 [R3 R4]]].
  assert (R5 : all_emitted (dc_onmessage (TextFrame (Obj (meta_of file))) c)
               = all_emitted c).
  { unfold dc_onmessage. rewrite (meta_of_ok file Hname). reflexivity. }
  pose proof (dc_onmessage_keeps_socket (TextFrame (Obj (meta_of file))) c)
    as R6.
  set (cm := dc_onmessage (TextFrame (Obj (meta_of file))) c) in *.
  destruct (receive_chunks_before_last file cm j R3 R1 R2 Hlow)
    as [I1 [I2 [I3 [I4 [_ I6]]]]].
  pose proof (receive_keeps_socket (chunk_frames file j) cm) as I7.
  rewrite chunk_frames_S, receive_app.
  set (cj := receive (chunk_frames file j) cm) in *.
  change (receive [BinaryFrame (chunk_at file j)] cj)
    with (storeChunk (chunk_at file j) cj).
  assert (Hlen : List.length (chunk_at file j) = f_size file - j * CHUNK_SIZE)
    by (rewrite chunk_at_length; lia).
  destruct (storeChunk_final_blob (chunk_at file j) cj (meta_of file)
              (Z.of_nat (f_size file)) I3 eq_refl) as [F1 [F2 F3]].
  { rewrite I2, Hlen. lia. }
  split; [| split; [exact F2 |]].
  - rewrite F1, I4, R4. f_equal. f_equal. unfold blob_of.
    cbn [meta_of m_name m_mime]. f_equal.
    rewrite I1.
    change [chunk_at file j] with (map (chunk_at file) [j]).
    rewrite <- map_app.
    change (seq 0 j ++ [j]) with (seq 0 j ++ seq (0 + j) 1).
    rewrite <- seq_app. replace (j + 1) with (S j) by lia.
    rewrite concat_chunks. apply firstn_all2. exact Hup.
  - rewrite F3, I6, R5, I7, R6. reflexivity.
Qed.

(** The receiver on the frames of a list of files (used below). *)
Lemma receive_all_files :
  forall (files : list File) (c : Comp),
    Forall receivable files ->
    downloads (receive (flat_map file_frames files) c)
    = downloads c ++ map blob_of files
    /\ all_emitted (receive (flat_map file_frames files) c)
       = all_emitted c ++ flat_map (fun _ => complete_if_socket c) files.
Proof.
  intros files. induction files as [| file files IH]; intros c Hall.
  - cbn [flat_map map]. unfold receive. cbn [fold_left].
    rewrite !app_nil_r. split; reflexivity.
  - inversion Hall as [| f fs Hf Hfs]; subst.
    cbn [flat_map map]. rewrite receive_app.
    destruct (receive_file file c Hf) as [F1 [_ F3]].
    destruct (IH (receive (file_frames file) c) Hfs) as [I1 I2].
    rewrite I1, I2, F1, F3, receive_keeps_socket, <- !app_assoc.
    split; reflexivity.
Qed.

(** Round trip.  The frames of a list of files, each with a name and at
    least one byte, delivered in order to a receiver in any state, make it
    hand over exactly these files, in order, with their names, types and
    bytes; it emits [session-complete] once per file. *)
Theorem receive_files :
  forall (files : list File) (c : Comp),
    Forall receivable files ->
    downloads (receive (flat_map file_frames files) c)
    = downloads c ++ map blob_of files
    /\ all_emitted (receive (flat_map file_frames files) c)
       = all_emitted c ++ flat_map (fun _ => complete_if_socket c) files.
Proof. exact receive_all_files. Qed.

(** Two small files delivered to a guest whose channel just opened. *)
Lemma receive_files_witness :
  downloads (receive (flat_map file_frames [file_a; file_b]) guest_open)
  = downloads guest_open ++ map blob_of [file_a; file_b]
  /\ all_emitted (receive (flat_map file_frames [file_a; file_b]) guest_open)
     = all_emitted guest_open
       ++ flat_map (fun _ => complete_if_socket guest_open) [file_a; file_b].
Proof.
  apply (receive_files [file_a; file_b] guest_open).
  repeat constructor; discriminate.
Defined.

(** ** A send can always be brought to its end *)

Section SenderLiveness.

Variable textBytes : JSONText -> nat.
Variable sendErrorMessage : string.

Lemma exec_app (r : Render) (a1 a2 : list Act) (s : SendPC * Comp) :
  exec textBytes sendErrorMessage r (a1 ++ a2) s
  = exec textBytes sendErrorMessage r a2
      (exec textBytes sendErrorMessage r a1 s).
Proof. unfold exec. apply fold_left_app. Qed.

(** Inside a file: drain the buffer, send a chunk, again, until the loop
    ends. *)
Lemma finish_chunks (r : Render) (base : list Frame) (m : nat) :
  forall (s : SendPC * Comp) (i offset : nat) (file : File),
    fst s = InLoop i offset ->
    sender_inv (r_selectedFiles r) base s ->
    nth_error (r_selectedFiles r) i = Some file ->
    f_size file - offset <= m ->
    exists acts,
      fst (exec textBytes sendErrorMessage r acts s) = AtFile (S i).
Proof.
  induction m as [| m IH]; intros s i offset file Hpc Hinv Hnth Hm.
  - exists [Run]. unfold exec. cbn [fold_left step]. rewrite Hpc.
    cbn [sender_run]. rewrite Hnth.
    replace (offset <? f_size file) with false
      by (symmetry; apply Nat.ltb_ge; lia).
    apply afterLoop_pc.
  - destruct (offset <? f_size file) eqn:Hlt.
    + apply Nat.ltb_lt in Hlt.
      destruct Hinv as [dc [Hdc [Hopen Hin]]].
      set (s1 := step textBytes sendErrorMessage r (Drain (bufferedAmount dc)) s).
      assert (Hs1 : s1 = (InLoop i offset,
                          set_dcRef (Some (fst (drain (bufferedAmount dc) dc)))
                                    (snd s))).
      { unfold s1. cbn [step]. unfold on_drain. rewrite Hdc, Hpc.
        destruct (snd (drain (bufferedAmount dc) dc)); reflexivity. }
      assert (Hinv1 : sender_inv (r_selectedFiles r) base s1).
      { apply step_keeps_inv. exists dc. now repeat split. }
      set (s2 := step textBytes sendErrorMessage r Run s1).
      assert (Hinv2 : sender_inv (r_selectedFiles r) base s2)
        by (now apply step_keeps_inv).
      assert (Hpc2 : fst s2
                     = InLoop i (offset + List.length
                                   (slice (f_content file) offset
                                      (offset + CHUNK_SIZE)))).
      { unfold s2. rewrite Hs1. cbn [step fst snd sender_run]. rewrite Hnth.
        apply Nat.ltb_lt in Hlt. rewrite Hlt. cbn [dcRef set_dcRef].
        cbn [drain fst bufferedAmountLowThreshold bufferedAmount].
        rewrite Nat.sub_diag.
        replace (bufferedAmountLowThreshold dc <? 0) with false by reflexivity.
        apply (sendChunk_open textBytes sendErrorMessage r i offset file _
                 (mkDC (readyState dc) 0 (bufferedAmountLowThreshold dc)
                       (sentFrames dc))).
        - reflexivity.
        - exact Hopen. }
      pose proof CHUNK_SIZE_pos as Hpos.
      destruct (IH s2 i _ file Hpc2 Hinv2 Hnth) as [acts Hacts].
      { rewrite slice_length. fold (f_size file). lia. }
      exists (Drain (bufferedAmount dc) :: Run :: acts).
      exact Hacts.
    + exists [Run]. unfold exec. cbn [fold_left step]. rewrite Hpc.
      cbn [sender_run]. rewrite Hnth, Hlt. apply afterLoop_pc.
Qed.

(** From file to file. *)
Lemma finish_files (r : Render) (base : list Frame) (m : nat) :
  forall (s : SendPC * Comp) (i : nat),
    fst s = AtFile i ->
    sender_inv (r_selectedFiles r) base s ->
    List.length (r_selectedFiles r) - i <= m ->
    exists acts, fst (exec textBytes sendErrorMessage r acts s) = Finished.
Proof.
  induction m as [| m IH]; intros s i Hpc Hinv Hm.
  - exists [Run]. unfold exec. cbn [fold_left step]. rewrite Hpc.
    cbn [sender_run].
    replace (nth_error (r_selectedFiles r) i) with (@None File)
      by (symmetry; apply nth_error_None; lia).
    reflexivity.
  - destruct (nth_error (r_selectedFiles r) i) as [file |] eqn:Hnth.
    + set (s1 := step textBytes sendErrorMessage r Run s).
      assert (Hinv1 : sender_inv (r_selectedFiles r) base s1)
        by (now apply step_keeps_inv).
      assert (Hpc1 : fst s1 = InLoop i 0).
      { destruct Hinv as [dc [Hdc [Hopen _]]].
        unfold s1. cbn [step]. rewrite Hpc. cbn [sender_run].
        rewrite Hnth, Hdc. unfold dc_send. rewrite Hopen. reflexivity. }
      destruct (finish_chunks r base (f_size file) s1 i 0 file Hpc1 Hinv1 Hnth)
        as [acts2 Hacts2]; [lia |].
      assert (Hlt : i < List.length (r_selectedFiles r))
        by (apply nth_error_Some; congruence).
      destruct (IH (exec textBytes sendErrorMessage r acts2 s1) (S i) Hacts2)
        as [acts3 Hacts3].
      { now apply exec_keeps_inv. }
      { lia. }
      exists (Run :: acts2 ++ acts3).
      change (exec textBytes sendErrorMessage r (Run :: acts2 ++ acts3) s)
        with (exec textBytes sendErrorMessage r (acts2 ++ acts3) s1).
      rewrite exec_app. exact Hacts3.
    + exists [Run]. unfold exec. cbn [fold_left step]. rewrite Hpc.
      cbn [sender_run]. rewrite Hnth. reflexivity.
Qed.

End SenderLiveness.

(** On an open channel a send started by a click can always be brought to
    its end: some pace of the link (here: the buffer is drained before each
    chunk) makes [sendFiles] return. *)
Theorem send_can_finish :
  forall (textBytes : JSONText -> nat) (sendErrorMessage : string)
         (c : Comp) (dc : DataChannel),
    dcRef c = Some dc ->
    readyState dc = ChOpen ->
    exists acts,
      fst (click_send textBytes sendErrorMessage acts c) = Finished.
Proof.
  intros textBytes msg c dc Hdc Hopen. unfold click_send.
  destruct (selectedFiles c) as [| f fs] eqn:Hfiles.
  - exists []. unfold exec, sendFiles. cbn [fold_left render r_selectedFiles].
    rewrite Hfiles. reflexivity.
  - assert (Hne : r_selectedFiles (render c) <> [])
      by (cbn [render r_selectedFiles]; rewrite Hfiles; discriminate).
    destruct (sendFiles_starts (render c) c dc Hdc Hopen Hne) as [S1 [S2 _]].
    apply (finish_files textBytes msg (render c) (sentFrames dc)
             (List.length (r_selectedFiles (render c))) _ 0 S1).
    + exists dc. split; [exact S2 |]. split; [exact Hopen |]. rewrite S1.
      split; [lia |]. unfold sent_before. cbn [firstn flat_map].
      now rewrite app_nil_r.
    + lia.
Qed.

Lemma send_can_finish_witness :
  exists acts,
    fst (click_send plainTextBytes "" acts (host_connected [file_a; file_b]))
    = Finished.
Proof.
  apply (send_can_finish plainTextBytes "" (host_connected [file_a; file_b])
           host_channel); reflexivity.
Defined.

(** ** From the sender to the receiver *)

(** The frames of a send that ran to its end on a fresh channel, delivered
    in order to a receiver, give it exactly the selected files, provided each
    has a name and at least one byte. *)
Theorem transfer_delivers_files :
  forall (textBytes : JSONText -> nat) (sendErrorMessage : string)
         (acts : list Act) (sender receiver : Comp) (dc : DataChannel),
    dcRef sender = Some dc ->
    readyState dc = ChOpen ->
    sentFrames dc = [] ->
    selectedFiles sender <> [] ->
    Forall receivable (selectedFiles sender) ->
    fst (click_send textBytes sendErrorMessage acts sender) = Finished ->
    downloads
      (receive
         (frames_sent (snd (click_send textBytes sendErrorMessage acts sender)))
         receiver)
    = downloads receiver ++ map blob_of (selectedFiles sender).
Proof.
  intros textBytes msg acts sender receiver dc Hdc Hopen Hbase Hne Hall Hfin.
  destruct (complete_send textBytes msg acts sender dc Hdc Hopen Hne Hfin)
    as [Hframes _].
  rewrite Hframes, Hbase. cbn [app].
  now apply receive_all_files.
Qed.

Lemma transfer_delivers_files_witness :
  downloads
    (receive
       (frames_sent
          (snd (click_send plainTextBytes "" (runs 7)
                  (host_connected [file_a; file_b]))))
       guest_open)
  = downloads guest_open
    ++ map blob_of (selectedFiles (host_connected [file_a; file_b])).
Proof.
  apply (transfer_delivers_files plainTextBytes "" (runs 7)
           (host_connected [file_a; file_b]) guest_open host_channel).
  - reflexivity.
  - reflexivity.
  - reflexivity.
  - discriminate.
  - repeat constructor; discriminate.
  - vm_compute. reflexivity.
Defined.

(** ** Joining with a well-formed token *)

Lemma valid_token_not_empty (token : string) :
  isValidToken (JSString token) = true -> (token =? "")%string = false.
Proof. destruct token; [discriminate | reflexivity]. Qed.

(** A join with a token that is valid once trimmed cancels whatever session
    the page held, tears the link down, stores the trimmed token, sets the
    status to waiting, attaches the listeners of the render of the click,
    and emits exactly one [register] carrying the trimmed token; it starts a
    connection attempt only when the socket is missing or not connected. *)
Theorem joinSession_registers :
  forall (input : option string) (token : string) (c : Comp),
    option_map trim input = Some token ->
    isValidToken (JSString token) = true ->
    status (click_join input c) = Waiting
    /\ error (click_join input c) = ""
    /\ sessionToken (click_join input c) = token
    /\ sessionTokenRef (click_join input c) = Some token
    /\ all_emitted (click_join input c)
       = all_emitted c ++ cancel_if_socket c ++ [MsgRegister token]
    /\ all_connectCalls (click_join input c) = connectCalls_after_ensure c
    /\ option_map wired (socketRef (click_join input c))
       = Some (Some (render c))
    /\ pcRef (click_join input c) = None
    /\ dcRef (click_join input c) = None
    /\ iceCandidateQueueRef (click_join input c) = [].
Proof.
  intros input token c Htrim Hvalid.
  unfold click_join, joinSession. rewrite Htrim, Hvalid.
  rewrite (valid_token_not_empty token Hvalid). cbn [orb negb].
  unfold resetState, ensureSocket, cancel_if_socket, all_emitted,
    all_connectCalls, connectCalls_after_ensure.
  destruct c as [st er ro tok ex la sf ci sp rp pc dc tr ch me by' so rr iq dl].
  destruct so as [[con calls em wi] |]; [destruct con |];
    cbn; rewrite <- ?app_assoc; repeat split; reflexivity.
Qed.

Lemma joinSession_registers_witness :
  status (click_join (Some " 1a2b3c4d5e6f7890 ") waiting_peer) = Waiting
  /\ error (click_join (Some " 1a2b3c4d5e6f7890 ") waiting_peer) = ""
  /\ sessionToken (click_join (Some " 1a2b3c4d5e6f7890 ") waiting_peer)
     = "1a2b3c4d5e6f7890"
  /\ sessionTokenRef (click_join (Some " 1a2b3c4d5e6f7890 ") waiting_peer)
     = Some "1a2b3c4d5e6f7890"
  /\ all_emitted (click_join (Some " 1a2b3c4d5e6f7890 ") waiting_peer)
     = all_emitted waiting_peer ++ cancel_if_socket waiting_peer
       ++ [MsgRegister "1a2b3c4d5e6f7890"]
  /\ all_connectCalls (click_join (Some " 1a2b3c4d5e6f7890 ") waiting_peer)
     = connectCalls_after_ensure waiting_peer
  /\ option_map wired
       (socketRef (click_join (Some " 1a2b3c4d5e6f7890 ") waiting_peer))
     = Some (Some (render waiting_peer))
  /\ pcRef (click_join (Some " 1a2b3c4d5e6f7890 ") waiting_peer) = None
  /\ dcRef (click_join (Some " 1a2b3c4d5e6f7890 ") waiting_peer) = None
  /\ iceCandidateQueueRef (click_join (Some " 1a2b3c4d5e6f7890 ") waiting_peer)
     = [].
Proof.
  apply (joinSession_registers (Some " 1a2b3c4d5e6f7890 ") "1a2b3c4d5e6f7890"
           waiting_peer); reflexivity.
Defined.

(** ** Creating a session *)

(** When the relay's response comes back to [createSession]: a failure (the
    request throws or the response is not ok) ends in status error with a
    message, and touches neither the socket nor the token held; a success
    stores the relay's token as it comes (it is not validated here), sets the
    status to waiting, attaches the listeners of the render of the click and
    emits exactly one [register] carrying that token, with a connection
    attempt only when the socket is missing or not connected. *)
Theorem createSession_outcome :
  forall (r : Render) (resp : CreateResponse) (c : Comp),
    match resp with
    | Created token expires =>
        status (createSession_resume r resp c) = Waiting
        /\ sessionToken (createSession_resume r resp c) = token
        /\ sessionTokenRef (createSession_resume r resp c) = Some token
        /\ expiresAt (createSession_resume r resp c) = Some expires
        /\ all_emitted (createSession_resume r resp c)
           = all_emitted c ++ [MsgRegister token]
        /\ all_connectCalls (createSession_resume r resp c)
           = connectCalls_after_ensure c
        /\ option_map wired (socketRef (createSession_resume r resp c))
           = Some (Some r)
    | _ =>
        status (createSession_resume r resp c) = Error
        /\ error (createSession_resume r resp c) <> ""
        /\ sessionTokenRef (createSession_resume r resp c) = sessionTokenRef c
        /\ socketRef (createSession_resume r resp c) = socketRef c
    end.
Proof.
  intros r resp c.
  unfold createSession_resume, ensureSocket, all_emitted, all_connectCalls,
    connectCalls_after_ensure, or_default.
  destruct c as [st er ro tok ex la sf ci sp rp pc dc tr ch me by' so rr iq dl].
  destruct resp as [message | | token expires].
  - destruct (message =? "")%string eqn:Hm; cbn; rewrite ?Hm;
      repeat split; try reflexivity; try discriminate.
    intros H. apply String.eqb_neq in Hm. congruence.
  - cbn. repeat split; try reflexivity; discriminate.
  - destruct so as [[con calls em wi] |]; [destruct con |];
      cbn; repeat split; reflexivity.
Qed.

(** ** Starting the negotiation *)

(** [ready] starts the negotiation only when the token held is valid.
    Without one the status becomes error and the connection, the channel and
    the socket log are left as they were.  With one, a guest installs a
    brand-new peer connection (no remote description, no candidate applied)
    that listens for the host's channel, and touches neither the candidate
    queue, nor the channel, nor the socket, nor the status. *)
Theorem ready_needs_valid_token :
  forall (createOffer : PeerConnection -> Outcome string) (c : Comp),
    (held_token_valid c = false ->
     status (on_ready createOffer c) = Error
     /\ error (on_ready createOffer c)
        = "Session token not ready. Please try again."
     /\ pcRef (on_ready createOffer c) = pcRef c
     /\ dcRef (on_ready createOffer c) = dcRef c
     /\ all_emitted (on_ready createOffer c) = all_emitted c)
    /\ (held_token_valid c = true ->
        is_host c = false ->
        (exists pc,
            pcRef (on_ready createOffer c) = Some pc
            /\ remoteDescription pc = None
            /\ iceApplied pc = []
            /\ ondatachannel pc = true)
        /\ iceCandidateQueueRef (on_ready createOffer c)
           = iceCandidateQueueRef c
        /\ dcRef (on_ready createOffer c) = dcRef c
        /\ all_emitted (on_ready createOffer c) = all_emitted c
        /\ status (on_ready createOffer c) = status c).
Proof.
  intros createOffer c.
  unfold held_token_valid, on_ready.
  destruct (sessionTokenRef c) as [token |] eqn:Htok.
  - destruct (negb (token =? "")%string && isValidToken (JSString token))
      eqn:Hvalid.
    + split; [discriminate |]. intros _ Hguest.
      apply andb_true_iff in Hvalid. destruct Hvalid as [Hne Hv].
      apply negb_true_iff in Hne.
      unfold startWebRTC. unfold is_host in Hguest. rewrite Htok, Hne, Hv.
      cbn [orb negb].
      destruct (roleRef c) as [[|] |] eqn:Hrole; [discriminate | |].
      * cbn [roleRef set_pcRef]. rewrite Hrole. cbn.
        split; [eexists; repeat split; reflexivity |].
        repeat split; reflexivity.
      * cbn [roleRef set_pcRef]. rewrite Hrole. cbn.
        split; [eexists; repeat split; reflexivity |].
        repeat split; reflexivity.
    + split; [| discriminate]. intros _. repeat split; reflexivity.
  - split; [| discriminate]. intros _. repeat split; reflexivity.
Qed.

(** ** A meta frame in the middle of a file *)



(** ** The expiry countdown *)

(** The countdown shows nothing without an expiry date, "expired" from the
    expiry time on, and otherwise the whole minutes and seconds that remain:
    the seconds are between 0 and 59 and, with the minutes, fall short of the
    time left by less than a second. *)
Theorem updateCountdown_spec :
  forall (getTime : string -> option Z) (text : string) (t now : Z),
    text <> "" ->
    getTime text = Some t ->
    updateCountdown getTime None now = Blank
    /\ ((t <= now)%Z -> updateCountdown getTime (Some text) now = Expired)
    /\ ((now < t)%Z ->
        exists m s,
          updateCountdown getTime (Some text) now = Remaining m s
          /\ (0 <= m)%Z /\ (0 <= s <= 59)%Z
          /\ (m * 60000 + s * 1000 <= t - now < m * 60000 + s * 1000 + 1000)%Z).
Proof.
  intros getTime text t now Htext Ht.
  assert (He : (text =? "")%string = false) by now apply String.eqb_neq.
  split; [reflexivity |]. split.
  - intros Hle. unfold updateCountdown. rewrite He, Ht. cbn zeta.
    replace (t - now <=? 0)%Z with true by (symmetry; apply Z.leb_le; lia).
    reflexivity.
  - intros Hlt. unfold updateCountdown. rewrite He, Ht. cbn zeta.
    replace (t - now <=? 0)%Z with false by (symmetry; apply Z.leb_gt; lia).
    set (diff := (t - now)%Z).
    assert (Hpos : (0 < diff)%Z) by (unfold diff; lia).
    exists (diff / 60000)%Z, (Z.rem diff 60000 / 1000)%Z.
    split; [reflexivity |].
    rewrite Z.rem_mod_nonneg by lia.
    pose proof (Z.div_mod diff 60000 ltac:(lia)) as H1.
    pose proof (Z.mod_pos_bound diff 60000 ltac:(lia)) as H2.
    pose proof (Z.div_mod (diff mod 60000) 1000 ltac:(lia)) as H3.
    pose proof (Z.mod_pos_bound (diff mod 60000) 1000 ltac:(lia)) as H4.
    assert (H5 : (0 <= diff / 60000)%Z) by (apply Z.div_pos; lia).
    assert (H6 : (0 <= diff mod 60000 / 1000)%Z) by (apply Z.div_pos; lia).
    split; [exact H5 |]. split; lia.
Qed.

Lemma updateCountdown_spec_witness :
  updateCountdown (fun _ => Some 600000%Z) None 125500%Z = Blank
  /\ ((600000 <= 125500)%Z ->
      updateCountdown (fun _ => Some 600000%Z) (Some "2026-01-01T00:10:00Z")
        125500%Z = Expired)
  /\ ((125500 < 600000)%Z ->
      exists m s,
        updateCountdown (fun _ => Some 600000%Z) (Some "2026-01-01T00:10:00Z")
          125500%Z = Remaining m s
        /\ (0 <= m)%Z /\ (0 <= s <= 59)%Z
        /\ (m * 60000 + s * 1000 <= 600000 - 125500
            < m * 60000 + s * 1000 + 1000)%Z).
Proof.
  apply (updateCountdown_spec (fun _ => Some 600000%Z) "2026-01-01T00:10:00Z"
           600000%Z 125500%Z).
  - discriminate.
  - reflexivity.
Defined.

(** ** Sending on a channel that is not open *)

Section ClosedChannel.

Variable textBytes : JSONText -> nat.
Variable sendErrorMessage : string.

Lemma step_closed (r : Render) (a : Act) (pc : SendPC) (c : Comp) :
  channel_not_open c = true ->
  channel_not_open (snd (step textBytes sendErrorMessage r a (pc, c))) = true
  /\ frames_sent (snd (step textBytes sendErrorMessage r a (pc, c)))
     = frames_sent c.
Proof.
  destruct c as [st er ro tok ex la sf ci sp rp pcr dc tr ch me by' so rr iq dl].
  unfold channel_not_open, frames_sent. cbn [dcRef].
  intros Hclosed.
  destruct a as [| d]; cbn [step fst snd].
  - destruct pc as [i | i offset | i offset |]; cbn [sender_run].
    + destruct (nth_error (r_selectedFiles r) i) as [file |];
        [| split; [exact Hclosed | reflexivity]].
      cbn [dcRef]. destruct dc as [dc |];
        [| split; [exact Hclosed | reflexivity]].
      assert (Hstate : ChannelState_is_open (readyState dc) = false)
        by (destruct (ChannelState_is_open (readyState dc));
            [discriminate | reflexivity]).
      unfold dc_send. rewrite Hstate.
      split; [exact Hclosed | reflexivity].
    + destruct (nth_error (r_selectedFiles r) i) as [file |];
        [| split; [exact Hclosed | reflexivity]].
      destruct (offset <? f_size file).
      * cbn [dcRef]. destruct dc as [dc |];
          [| split; [exact Hclosed | reflexivity]].
        destruct (bufferedAmountLowThreshold dc <? bufferedAmount dc);
          [split; [exact Hclosed | reflexivity] |].
        assert (Hstate : ChannelState_is_open (readyState dc) = false)
          by (destruct (ChannelState_is_open (readyState dc));
              [discriminate | reflexivity]).
        unfold sendChunk. cbn [dcRef]. unfold dc_send. rewrite Hstate.
        split; [exact Hclosed | reflexivity].
      * unfold afterLoop.
        destruct (i =? List.length (r_selectedFiles r) - 1).
        -- unfold emit_opt. cbn [setStatus setSelectedFiles setCurrentFileIndex
                                   socketRef sessionTokenRef].
           destruct so as [so |]; split; first [exact Hclosed | reflexivity].
        -- split; [exact Hclosed | reflexivity].
    + split; [exact Hclosed | reflexivity].
    + split; [exact Hclosed | reflexivity].
  - unfold on_drain. cbn [dcRef]. destruct dc as [dc |];
      [| split; [exact Hclosed | reflexivity]].
    assert (Hstate : ChannelState_is_open (readyState dc) = false)
      by (destruct (ChannelState_is_open (readyState dc));
          [discriminate | reflexivity]).
    destruct (snd (drain d dc)).
    + destruct pc as [i | i offset | i offset |];
        try (cbn [set_dcRef snd dcRef drain fst readyState sentFrames];
             split; [exact Hclosed | reflexivity]).
      destruct (nth_error (r_selectedFiles r) i) as [file |];
        [| cbn [set_dcRef snd dcRef drain fst readyState sentFrames];
           split; [exact Hclosed | reflexivity]].
      unfold sendChunk. cbn [set_dcRef dcRef]. unfold dc_send.
      cbn [drain fst readyState]. rewrite Hstate.
      cbn [sendFailed snd setStatus setError set_dcRef dcRef readyState
           sentFrames].
      split; [exact Hclosed | reflexivity].
    + cbn [set_dcRef snd dcRef drain fst readyState sentFrames].
      split; [exact Hclosed | reflexivity].
Qed.

Lemma exec_closed (r : Render) (acts : list Act) :
  forall (pc : SendPC) (c : Comp),
    channel_not_open c = true ->
    frames_sent (snd (exec textBytes sendErrorMessage r acts (pc, c)))
    = frames_sent c.
Proof.
  unfold exec.
  induction acts as [| a acts IH]; intros pc c Hclosed; [reflexivity |].
  cbn [fold_left].
  destruct (step_closed r a pc c Hclosed) as [H1 H2].
  destruct (step textBytes sendErrorMessage r a (pc, c)) as [pc' c'].
  cbn [snd] in H1, H2. rewrite (IH pc' c' H1). exact H2.
Qed.

(** A sender that returned stays returned; later drains change neither the
    status nor the error shown. *)
Lemma exec_finished (r : Render) (acts : list Act) :
  forall c : Comp,
    fst (exec textBytes sendErrorMessage r acts (Finished, c)) = Finished
    /\ status (snd (exec textBytes sendErrorMessage r acts (Finished, c)))
       = status c
    /\ error (snd (exec textBytes sendErrorMessage r acts (Finished, c)))
       = error c.
Proof.
  unfold exec.
  induction acts as [| a acts IH]; intros c;
    [split; [reflexivity | split; reflexivity] |].
  cbn [fold_left].
  assert (Hstep :
            exists c', step textBytes sendErrorMessage r a (Finished, c)
                       = (Finished, c')
                       /\ status c' = status c /\ error c' = error c).
  { destruct a as [| d]; cbn [step fst snd sender_run].
    - exists c. split; [reflexivity | split; reflexivity].
    - unfold on_drain. destruct (dcRef c) as [dc |].
      + exists (set_dcRef (Some (fst (drain d dc))) c).
        split; [now destruct (snd (drain d dc)) |].
        destruct c; split; reflexivity.
      + exists c. split; [reflexivity | split; reflexivity]. }
  destruct Hstep as [c' [Hstep [Hst Her]]]. rewrite Hstep.
  destruct (IH c') as [I1 [I2 I3]].
  split; [exact I1 |]. split; congruence.
Qed.

End ClosedChannel.

(** Nothing is ever sent on a channel that is not open: whatever the sender
    was doing and however the schedule continues, the frames on the channel
    stay as they were. *)
Theorem closed_channel_sends_nothing :
  forall (textBytes : JSONText -> nat) (sendErrorMessage : string)
         (r : Render) (acts : list Act) (pc : SendPC) (c : Comp),
    channel_not_open c = true ->
    frames_sent (snd (exec textBytes sendErrorMessage r acts (pc, c)))
    = frames_sent c.
Proof.
  intros textBytes sendErrorMessage r acts pc c Hclosed.
  now apply exec_closed.
Qed.

Lemma closed_channel_sends_nothing_witness :
  frames_sent
    (snd (exec plainTextBytes "closed" (render host_closed) (runs 3)
            (AtFile 0, host_closed)))
  = frames_sent host_closed.
Proof.
  apply (closed_channel_sends_nothing plainTextBytes "closed"
           (render host_closed) (runs 3) (AtFile 0) host_closed).
  reflexivity.
Defined.

(** When the channel is not open as a chunk is due, and the buffer is not
    above the threshold, the send throws: the sender returns for good, the
    remaining chunks and files are not sent, and the component ends in
    status error with the message of the failure. *)
Theorem send_failure_aborts_transfer :
  forall (textBytes : JSONText -> nat) (sendErrorMessage : string)
         (r : Render) (i offset : nat) (file : File) (c : Comp)
         (dc : DataChannel) (acts : list Act),
    nth_error (r_selectedFiles r) i = Some file ->
    offset < f_size file ->
    dcRef c = Some dc ->
    ChannelState_is_open (readyState dc) = false ->
    bufferedAmount dc <= bufferedAmountLowThreshold dc ->
    let s := exec textBytes sendErrorMessage r (Run :: acts) (InLoop i offset, c)
    in fst s = Finished
       /\ status (snd s) = Error
       /\ error (snd s) = ("File transfer failed: " ++ sendErrorMessage)%string
       /\ frames_sent (snd s) = frames_sent c.
Proof.
  intros textBytes sendErrorMessage r i offset file c dc acts
         Hnth Hoff Hdc Hstate Hlow s.
  assert (Hclosed : channel_not_open c = true)
    by (unfold channel_not_open; rewrite Hdc, Hstate; reflexivity).
  assert (Hs : s = exec textBytes sendErrorMessage r acts
                     (sendFailed sendErrorMessage c)).
  { subst s. unfold exec. cbn [fold_left step fst snd sender_run].
    rewrite Hnth.
    replace (offset <? f_size file) with true
      by (symmetry; apply Nat.ltb_lt; exact Hoff).
    rewrite Hdc.
    replace (bufferedAmountLowThreshold dc <? bufferedAmount dc) with false
      by (symmetry; apply Nat.ltb_ge; exact Hlow).
    unfold sendChunk. rewrite Hdc. unfold dc_send. rewrite Hstate.
    reflexivity. }
  rewrite Hs. unfold sendFailed.
  destruct (exec_finished textBytes sendErrorMessage r acts
              (setStatus Error
                 (setError ("File transfer failed: " ++ sendErrorMessage) c)))
    as [F1 [F2 F3]].
  split; [exact F1 |].
  split; [rewrite F2; now destruct c |].
  split; [rewrite F3; now destruct c |].
  rewrite (exec_closed textBytes sendErrorMessage r acts Finished
             (setStatus Error
                (setError ("File transfer failed: " ++ sendErrorMessage) c)))
    by (destruct c; exact Hclosed).
  now destruct c.
Qed.

Lemma send_failure_aborts_transfer_witness :
  let s := exec plainTextBytes "closed" (render host_closed)
             (Run :: [Drain 1; Run]) (InLoop 0 0, host_closed)
  in fst s = Finished
     /\ status (snd s) = Error
     /\ error (snd s) = ("File transfer failed: " ++ "closed")%string
     /\ frames_sent (snd s) = frames_sent host_closed.
Proof.
  apply (send_failure_aborts_transfer plainTextBytes "closed"
           (render host_closed) 0 0 file_a host_closed closed_channel
           [Drain 1; Run]).
  - reflexivity.
  - unfold f_size, file_a. cbn [f_content List.length]. lia.
  - reflexivity.
  - reflexivity.
  - unfold closed_channel. cbn [bufferedAmount bufferedAmountLowThreshold]. lia.
Defined.
